(** * yousum: the pure core of the bot (src/bot.py)

    A shallow embedding of the four pure pieces of [bot.py]:
    the allow-list loaded at import time ([ALLOWED_CHAT_IDS]), the access
    check ([is_chat_allowed]), the link matcher ([YOUTUBE_URL_PATTERN],
    [is_youtube_url], [extract_youtube_url]) and the message chunker
    ([split_message]).

    Python [str] values are sequences of Unicode code points, so a string is
    a [list N]; [len], slicing, [rfind], [strip] and [join] are written out
    with the behaviour CPython gives them.  Python [int] is [Z]. *)

From Stdlib Require Import ZArith NArith List Ascii String Lia Bool.
From stdpp Require Import base tactics option list gmap.

Set Default Proof Using "Type".

(** ** Strings *)

Abbreviation char := N (only parsing).
Abbreviation str := (list N) (only parsing).

(** An ASCII literal as a Python string. *)
Definition py (s : string) : str := map N_of_ascii (list_ascii_of_string s).

Definition py_len (s : str) : Z := Z.of_nat (length s).

(** Truth value of a string in a condition: [if s:]. *)
Definition truthy (s : str) : bool :=
  match s with [] => false | _ :: _ => true end.

Definition newline : N := 10%N.
Definition space : N := 32%N.

(** [str.isspace] on one code point: the code points CPython's
    [Py_UNICODE_ISSPACE] accepts (bidirectional class WS, B or S, or
    category Zs).  [strip], [lstrip] and [rstrip] without argument remove
    exactly these. *)
Definition isspace (c : N) : bool :=
  ((9 <=? c) && (c <=? 13) || (28 <=? c) && (c <=? 32)
   || (c =? 133) || (c =? 160) || (c =? 5760)
   || (8192 <=? c) && (c <=? 8202)
   || (c =? 8232) || (c =? 8233) || (c =? 8239) || (c =? 8287)
   || (c =? 12288))%N.

Fixpoint lstrip (s : str) : str :=
  match s with
  | [] => []
  | c :: s' => if isspace c then lstrip s' else s
  end.

Fixpoint rstrip (s : str) : str :=
  match s with
  | [] => []
  | c :: s' =>
      match rstrip s' with
      | [] => if isspace c then [] else [c]
      | t => c :: t
      end
  end.

Definition strip (s : str) : str := lstrip (rstrip s).

(** Slice bounds as [PySlice_AdjustIndices] normalises them (step 1): a
    negative bound counts from the end, and both are clipped to [0, len]. *)
Definition adjust (len i : Z) : Z :=
  if (i <? 0)%Z then Z.max 0 (i + len) else Z.min i len.

(** [s[:stop]] and [s[start:]]. *)
Definition slice_to (s : str) (stop : Z) : str :=
  take (Z.to_nat (adjust (py_len s) stop)) s.

Definition slice_from (s : str) (start : Z) : str :=
  drop (Z.to_nat (adjust (py_len s) start)) s.

(** Index of the last occurrence of [c] in [s]. *)
Fixpoint last_index (c : N) (s : str) : option nat :=
  match s with
  | [] => None
  | x :: s' =>
      match last_index c s' with
      | Some i => Some (S i)
      | None => if (x =? c)%N then Some 0 else None
      end
  end.

(** [s.rfind(c, start, stop)] for a one-character needle: the highest index
    in [s[start:stop]] holding [c], or [-1]. *)
Definition rfind (s : str) (c : N) (start stop : Z) : Z :=
  let b := adjust (py_len s) start in
  let e := adjust (py_len s) stop in
  match last_index c (drop (Z.to_nat b) (take (Z.to_nat e) s)) with
  | Some i => (b + Z.of_nat i)%Z
  | None => (-1)%Z
  end.

(** [sep.join(parts)]. *)
Fixpoint sep_tail (sep : str) (parts : list str) : str :=
  match parts with
  | [] => []
  | p :: ps => sep ++ p ++ sep_tail sep ps
  end.

Definition join (sep : str) (parts : list str) : str :=
  match parts with
  | [] => []
  | p :: ps => p ++ sep_tail sep ps
  end.

(** [s.split(c)] for a one-character separator: never an empty list. *)
Fixpoint split_on (c : N) (s : str) : list str :=
  match s with
  | [] => [[]]
  | x :: s' =>
      if (x =? c)%N then [] :: split_on c s'
      else match split_on c s' with
           | h :: t => (x :: h) :: t
           | [] => [[x]]
           end
  end.

Definition startswith (s p : str) : bool :=
  bool_decide (take (length p) s = p).

(** ** The message chunker: [split_message] *)

Module Chunker.

(** One pass through the body of the [while] loop, on the pair
    [(remaining, chunks)]. *)
Definition loop_body (max_length : Z) (st : str * list str) : str * list str :=
  let '(remaining, chunks) := st in
  let split_pos := rfind remaining newline 0 max_length in
  let split_pos :=
    if (split_pos =? -1)%Z then rfind remaining space 0 max_length
    else split_pos in
  let split_pos :=
    if (split_pos =? -1)%Z then max_length else split_pos in
  let chunk := rstrip (slice_to remaining split_pos) in
  let chunks := if truthy chunk then chunks ++ [chunk] else chunks in
  (lstrip (slice_from remaining split_pos), chunks).

(** [while len(remaining) > max_length: ...], at most [fuel] passes; [None]
    when the passes run out before the condition turns false. *)
Fixpoint while_loop (fuel : nat) (max_length : Z) (st : str * list str)
  : option (str * list str) :=
  if (max_length <? py_len (fst st))%Z then
    match fuel with
    | O => None
    | S fuel' => while_loop fuel' max_length (loop_body max_length st)
    end
  else Some st.

Definition split_message (fuel : nat) (text : str) (max_length : Z)
  : option (list str) :=
  if (py_len text <=? max_length)%Z then Some [text]
  else
    match while_loop fuel max_length (text, []) with
    | None => None
    | Some (remaining, chunks) =>
        Some (if truthy remaining then chunks ++ [remaining] else chunks)
    end.

End Chunker.

(** ** The link matcher: [YOUTUBE_URL_PATTERN] and its two users *)

Module Matcher.

(** The fragment of [re] syntax the pattern uses. *)
Inductive regex : Type :=
| Str (l : str)                      (* literal text *)
| Class (ranges : list (N * N))      (* [a-z...] *)
| Seq (r1 r2 : regex)
| Alt (r1 r2 : regex)                (* r1|r2, left first *)
| Opt (r : regex)                    (* r?, greedy *)
| Repeat (n : nat) (r : regex)       (* r{n} *)
| Group (r : regex).                 (* (r) and (?:r) *)

Definition in_class (ranges : list (N * N)) (c : N) : bool :=
  existsb (fun '(lo, hi) => (lo <=? c) && (c <=? hi))%N ranges.

(** [strip_prefix l s] is [Some rest] when [s = l ++ rest]. *)
Fixpoint strip_prefix (l s : str) : option str :=
  match l, s with
  | [], _ => Some s
  | _ :: _, [] => None
  | x :: l', y :: s' => if (x =? y)%N then strip_prefix l' s' else None
  end.

(** [n] matches in a row of an item matched by [f]. *)
Fixpoint rep {A : Type} (f : str -> (str -> option A) -> option A)
    (n : nat) (s : str) (k : str -> option A) : option A :=
  match n with
  | O => k s
  | S n' => f s (fun s' => rep f n' s' k)
  end.

(** The backtracking matcher of [re]: [bt r s k] matches [r] at the head of
    [s] and hands the rest to the continuation [k]; when [k] refuses, the
    next way of matching [r] is tried, in the engine's order (left
    alternative first, an optional item present first). *)
Fixpoint bt {A : Type} (r : regex) (s : str) (k : str -> option A) : option A :=
  match r with
  | Str l => match strip_prefix l s with Some s' => k s' | None => None end
  | Class ranges =>
      match s with
      | c :: s' => if in_class ranges c then k s' else None
      | [] => None
      end
  | Seq r1 r2 => bt r1 s (fun s' => bt r2 s' k)
  | Alt r1 r2 =>
      match bt r1 s k with
      | Some a => Some a
      | None => bt r2 s k
      end
  | Opt r1 =>
      match bt r1 s k with
      | Some a => Some a
      | None => k s
      end
  | Repeat n r1 => rep (bt r1) n s k
  | Group r1 => bt r1 s k
  end.

(** Length of the match of [r] at the head of [s], if there is one. *)
Definition match_at (r : regex) (s : str) : option nat :=
  bt r s (fun rest => Some (length s - length rest)).

(** [r.search(text)]: start positions are tried from the left; the result is
    the start index and [group(0)] of the first position that matches. *)
Fixpoint search_from (r : regex) (s : str) (i : nat) : option (nat * str) :=
  match match_at r s with
  | Some n => Some (i, take n s)
  | None =>
      match s with
      | [] => None
      | _ :: s' => search_from r s' (S i)
      end
  end.

Definition search (r : regex) (text : str) : option (nat * str) :=
  search_from r text 0.

(** [r'(?:https?://)?(?:www\.)?(?:youtube\.com/watch\?v=|youtu\.be/)([a-zA-Z0-9_-]{11})'] *)
Definition id_class : list (N * N) :=
  [(97, 122); (65, 90); (48, 57); (95, 95); (45, 45)]%N.

Definition YOUTUBE_URL_PATTERN : regex :=
  Seq (Opt (Group (Seq (Str (py "http")) (Seq (Opt (Str (py "s"))) (Str (py "://"))))))
 (Seq (Opt (Group (Str (py "www."))))
 (Seq (Group (Alt (Str (py "youtube.com/watch?v=")) (Str (py "youtu.be/"))))
      (Group (Repeat 11 (Class id_class))))).

Definition is_youtube_url (text : str) : bool :=
  match search YOUTUBE_URL_PATTERN text with
  | Some _ => true
  | None => false
  end.

(** [None] is Python's [None]. *)
Definition extract_youtube_url (text : str) : option str :=
  match search YOUTUBE_URL_PATTERN text with
  | Some (_, full_url) =>
      let full_url :=
        if negb (startswith full_url (py "http"))
        then py "https://" ++ full_url else full_url in
      Some full_url
  | None => None
  end.

(** The language of a pattern: which strings it matches as a whole. *)
Fixpoint power (n : nat) (L : str -> Prop) (s : str) : Prop :=
  match n with
  | O => s = []
  | S n' => exists s1 s2, s = s1 ++ s2 /\ L s1 /\ power n' L s2
  end.

Fixpoint matches (r : regex) (s : str) : Prop :=
  match r with
  | Str l => s = l
  | Class ranges => exists c, s = [c] /\ in_class ranges c = true
  | Seq r1 r2 => exists s1 s2, s = s1 ++ s2 /\ matches r1 s1 /\ matches r2 s2
  | Alt r1 r2 => matches r1 s \/ matches r2 s
  | Opt r1 => matches r1 s \/ s = []
  | Repeat n r1 => power n (matches r1) s
  | Group r1 => matches r1 s
  end.

(** A character of a video identifier, and the ways a link can begin. *)
Definition is_id_char (c : N) : bool := in_class id_class c.

Definition schemes : list str := [[]; py "http://"; py "https://"].
Definition wwws : list str := [[]; py "www."].
Definition hosts : list str := [py "youtube.com/watch?v="; py "youtu.be/"].

Definition link_prefixes : list str :=
  sc ← schemes; w ← wwws; h ← hosts; [sc ++ w ++ h].

(** A run of identifier characters ends where [post] begins: [post] is
    empty or starts with a character of another kind. *)
Definition run_ends (post : str) : Prop :=
  match post with
  | [] => True
  | c :: _ => is_id_char c = false
  end.

(** The match was made with the optional scheme present. *)
Definition has_scheme (g : str) : bool :=
  startswith g (py "http://") || startswith g (py "https://").

(** [g] occurs in [text] right after [pre]. *)
Definition occurs_at (text pre g : str) : Prop :=
  exists post, text = pre ++ g ++ post.

End Matcher.

(** ** Access control: [ALLOWED_CHAT_IDS] and [is_chat_allowed] *)

Module Access.

(** What the module-level code leaves behind: the allow-set and the warnings
    it logged. *)
Record loaded := Loaded {
  allowed : gset Z;
  warnings : list str
}.

Section Load.

(** The builtin [int] on a string: [Some n], or [None] for [ValueError]. *)
Variable int : str -> option Z.

(** The set comprehension: entries are visited left to right, an entry that
    strips to nothing is skipped, and the first [ValueError] ends it. *)
Fixpoint comprehension (entries : list str) : option (gset Z) :=
  match entries with
  | [] => Some ∅
  | chat_id :: rest =>
      if truthy (strip chat_id) then
        match int (strip chat_id) with
        | None => None
        | Some n =>
            match comprehension rest with
            | None => None
            | Some ids => Some ({[n]} ∪ ids)
            end
        end
      else comprehension rest
  end.

(** [os.getenv('TELEGRAM_CHAT_IDS', '287129494')]; [env] is the variable's
    value when it is set. *)
Definition TELEGRAM_CHAT_IDS_STR (env : option str) : str :=
  default (py "287129494") env.

Definition load (env : option str) : loaded :=
  let s := TELEGRAM_CHAT_IDS_STR env in
  if truthy s then
    match comprehension (split_on 44 s) with
    | Some ids => Loaded ids []
    | None =>
        Loaded ∅ [py "Invalid TELEGRAM_CHAT_IDS format: " ++ s
                  ++ py ". Expected comma-separated integers."]
    end
  else Loaded ∅ [].

Definition ALLOWED_CHAT_IDS (env : option str) : gset Z := allowed (load env).

End Load.

(** [ALLOWED_CHAT_IDS] is the global the function reads. *)
Definition is_chat_allowed (ALLOWED_CHAT_IDS : gset Z) (chat_id : Z) : bool :=
  if bool_decide (ALLOWED_CHAT_IDS = ∅) then true
  else bool_decide (chat_id ∈ ALLOWED_CHAT_IDS).

(** A decimal reader for ASCII input, used to run [load] on examples:
    optional sign, then digits. *)
Fixpoint digits (acc : Z) (s : str) : option Z :=
  match s with
  | [] => Some acc
  | c :: s' =>
      if ((48 <=? c) && (c <=? 57))%N
      then digits (10 * acc + Z.of_N (c - 48)) s'
      else None
  end.

Definition int_ascii (s : str) : option Z :=
  match strip s with
  | [] => None
  | c :: s' =>
      if (c =? 45)%N then
        match s' with [] => None | _ => Z.opp <$> digits 0 s' end
      else if (c =? 43)%N then
        match s' with [] => None | _ => digits 0 s' end
      else digits 0 (c :: s')
  end.

End Access.

(** ** The handlers: [summarize_youtube_video], [start], [handle_message] *)

Module Bot.
Import Chunker Matcher.

(** The globals the handlers read, set once when the module is loaded. *)
Record config := Config {
  ALLOWED_CHAT_IDS : gset Z;
  PLACEHOLDER_MESSAGE : str;
  SUMMARY_PROMPT : str
}.

(** What a handler gets from an update: [update.effective_chat.id] and
    [update.message.text], which is [None] for a message without text. *)
Record update := Update {
  effective_chat_id : Z;
  message_text : option str
}.

(** The calls a handler makes to the outside, each listed when it is made,
    whether it then returns or raises.  [edit_text] is always on the
    message the ['Processing...'] reply returned.  The text of a logged
    error is its fixed part, without the exception's own words; logging
    itself does not fail. *)
Inductive call : Type :=
| reply_text (text : str) (parse_mode : option str)
| edit_text (text : str) (parse_mode : option str)
| generate_content (file_uri prompt : str)
| logger_error (message : str).

(** How the outside answers, given the calls made so far: a Telegram call
    returns ([true]) or raises; the Gemini call returns [response.text]
    (a string or [None]) or raises ([None]). *)
Record world := World {
  telegram : list call -> call -> bool;
  gemini : list call -> str -> str -> option (option str)
}.

(** How a computation ends: it returns, an [Exception] leaves it, or it
    never comes back. *)
Inductive outcome (A : Type) : Type :=
| Returned (a : A)
| Raised
| Hangs.
Arguments Returned {A} a.
Arguments Raised {A}.
Arguments Hangs {A}.

(** A computation reads the calls made before it and gives the calls it
    makes and how it ends. *)
Definition M (A : Type) : Type := list call -> list call * outcome A.

Definition ret {A : Type} (a : A) : M A := fun _ => ([], Returned a).

Definition bind {A B : Type} (m : M A) (f : A -> M B) : M B :=
  fun history =>
    match m history with
    | (calls, Returned a) =>
        let '(calls', out) := f a (history ++ calls) in (calls ++ calls', out)
    | (calls, Raised) => (calls, Raised)
    | (calls, Hangs) => (calls, Hangs)
    end.

(** [try: body / except Exception: handler]. *)
Definition try_except {A : Type} (body handler : M A) : M A :=
  fun history =>
    match body history with
    | (calls, Raised) =>
        let '(calls', out) := handler (history ++ calls) in (calls ++ calls', out)
    | r => r
    end.

Definition hang {A : Type} : M A := fun _ => ([], Hangs).

(** How a Telegram call made after [history] ends. *)
Definition answer (w : world) (history : list call) (c : call) : outcome unit :=
  if telegram w history c then Returned tt else Raised.

Definition telegram_call (w : world) (c : call) : M unit :=
  fun history => ([c], answer w history c).

(** [for x in l: body(x)]. *)
Fixpoint for_each {A : Type} (l : list A) (body : A -> M unit) : M unit :=
  match l with
  | [] => ret tt
  | x :: l' => bind (body x) (fun _ => for_each l' body)
  end.

(** The literals of the handlers. *)
Definition HELLO : str :=
  py "Hello! Send me a YouTube video link, and I will summarize it for you using Google Gemini.".
Definition PLEASE_SEND : str :=
  py "Please send a valid YouTube video link (youtube.com or youtu.be format).".
Definition COULD_NOT_EXTRACT : str :=
  py "Could not extract YouTube URL from your message. Please try again.".
Definition PROCESSING : str := py "Processing your YouTube video...".
Definition SORRY : str :=
  py "Sorry, I could not generate a summary for this video. Please try again later.".
Definition ERROR_OCCURRED : str :=
  py "An error occurred while processing the video. Please check if the URL is valid and try again later.".
Definition Markdown : str := py "Markdown".

(** The fixed part of [f"📹 *Video Summary:*\n\n{summary}"]; the camera is
    the code point U+1F4F9. *)
Definition summary_header : str :=
  [128249%N] ++ py " *Video Summary:*" ++ [newline; newline].

(** Any exception of the Gemini call is logged and turned into [None]. *)
Definition summarize_youtube_video (cfg : config) (w : world) (video_url : str)
  : M (option str) :=
  fun history =>
    let c := generate_content video_url (SUMMARY_PROMPT cfg) in
    match gemini w history video_url (SUMMARY_PROMPT cfg) with
    | Some text => ([c], Returned text)
    | None => ([c; logger_error (py "Error summarizing video: ")], Returned None)
    end.

Definition start (cfg : config) (w : world) (upd : update) : M unit :=
  let chat_id := effective_chat_id upd in
  if negb (Access.is_chat_allowed (ALLOWED_CHAT_IDS cfg) chat_id) then
    telegram_call w (reply_text (PLACEHOLDER_MESSAGE cfg) None)
  else
    telegram_call w (reply_text HELLO None).

(** The body of the [try] of [handle_message].  [split_message] gets
    [len(full_message)] passes; should they not suffice, the handler would
    not come back from the call. *)
Definition summarize_and_send (cfg : config) (w : world) (video_url : str)
  : M unit :=
  bind (summarize_youtube_video cfg w video_url) (fun summary =>
  match summary with
  | Some ((_ :: _) as summary) =>
      let full_message := summary_header ++ summary in
      match split_message (length full_message) full_message 4000 with
      | None => hang
      | Some message_chunks =>
          match message_chunks with
          | [] => ret tt
          | first :: others =>
              bind (telegram_call w (edit_text first (Some Markdown))) (fun _ =>
              for_each others (fun chunk =>
                telegram_call w (reply_text chunk (Some Markdown))))
          end
      end
  | _ => telegram_call w (edit_text SORRY None)
  end).

Definition handle_message (cfg : config) (w : world) (upd : update) : M unit :=
  let chat_id := effective_chat_id upd in
  if negb (Access.is_chat_allowed (ALLOWED_CHAT_IDS cfg) chat_id) then
    telegram_call w (reply_text (PLACEHOLDER_MESSAGE cfg) None)
  else
    match message_text upd with
    | None | Some [] => ret tt
    | Some message_text =>
        if negb (is_youtube_url message_text) then
          telegram_call w (reply_text PLEASE_SEND None)
        else
          match extract_youtube_url message_text with
          | None | Some [] =>
              telegram_call w (reply_text COULD_NOT_EXTRACT None)
          | Some video_url =>
              bind (telegram_call w (reply_text PROCESSING None)) (fun _ =>
              try_except
                (summarize_and_send cfg w video_url)
                (bind (fun _ => ([logger_error (py "Error processing video: ")],
                                 Returned tt)) (fun _ =>
                 telegram_call w (edit_text ERROR_OCCURRED None))))
          end
    end.

(** A call sequence that ended in an exception ends with the Telegram call
    that raised it. *)
Definition failed_last (w : world) (history calls : list call) : Prop :=
  exists pre c, calls = pre ++ [c] /\ telegram w (history ++ pre) c = false.

(** The chunks of the summary message. *)
Definition summary_chunks (summary : str) : option (list str) :=
  let full_message := summary_header ++ summary in
  split_message (length full_message) full_message 4000.

(** The ways [handle_message] can go, with the calls it makes and how it
    ends: the table its code spells out branch by branch. *)
Inductive handled (cfg : config) (w : world) (upd : update) (history : list call)
  : list call -> outcome unit -> Prop :=
| handled_denied :
    Access.is_chat_allowed (ALLOWED_CHAT_IDS cfg) (effective_chat_id upd) = false ->
    handled cfg w upd history
      [reply_text (PLACEHOLDER_MESSAGE cfg) None]
      (answer w history (reply_text (PLACEHOLDER_MESSAGE cfg) None))
| handled_no_text :
    Access.is_chat_allowed (ALLOWED_CHAT_IDS cfg) (effective_chat_id upd) = true ->
    message_text upd = None \/ message_text upd = Some [] ->
    handled cfg w upd history [] (Returned tt)
| handled_no_link t :
    Access.is_chat_allowed (ALLOWED_CHAT_IDS cfg) (effective_chat_id upd) = true ->
    message_text upd = Some t -> t <> [] -> is_youtube_url t = false ->
    handled cfg w upd history
      [reply_text PLEASE_SEND None]
      (answer w history (reply_text PLEASE_SEND None))
| handled_unanswered t url :
    Access.is_chat_allowed (ALLOWED_CHAT_IDS cfg) (effective_chat_id upd) = true ->
    message_text upd = Some t -> extract_youtube_url t = Some url ->
    telegram w history (reply_text PROCESSING None) = false ->
    handled cfg w upd history [reply_text PROCESSING None] Raised
| handled_done t url body :
    Access.is_chat_allowed (ALLOWED_CHAT_IDS cfg) (effective_chat_id upd) = true ->
    message_text upd = Some t -> extract_youtube_url t = Some url ->
    telegram w history (reply_text PROCESSING None) = true ->
    summarize_and_send cfg w url (history ++ [reply_text PROCESSING None])
    = (body, Returned tt) ->
    handled cfg w upd history (reply_text PROCESSING None :: body) (Returned tt)
| handled_caught t url body :
    Access.is_chat_allowed (ALLOWED_CHAT_IDS cfg) (effective_chat_id upd) = true ->
    message_text upd = Some t -> extract_youtube_url t = Some url ->
    telegram w history (reply_text PROCESSING None) = true ->
    summarize_and_send cfg w url (history ++ [reply_text PROCESSING None])
    = (body, Raised) ->
    handled cfg w upd history
      (reply_text PROCESSING None :: body
       ++ [logger_error (py "Error processing video: ");
           edit_text ERROR_OCCURRED None])
      (answer w
         (history ++ reply_text PROCESSING None :: body
          ++ [logger_error (py "Error processing video: ")])
         (edit_text ERROR_OCCURRED None)).

(** Whether a call shows a text with Markdown. *)
Definition is_markdown (c : call) : bool :=
  match c with
  | reply_text _ (Some _) | edit_text _ (Some _) => true
  | _ => false
  end.

(** A setting to run the handlers in: every chat allowed, Telegram and
    Gemini at work. *)
Definition example_config : config :=
  Config ∅ (py "Not for you.") (py "Summarise this video.").

Definition example_world : world :=
  World (fun _ _ => true) (fun _ _ _ => Some (Some (py "A short summary."))).

Definition example_update : update :=
  Update 1 (Some (py "look: youtu.be/dQw4w9WgXcQ")).


(** The first line of the summary message. *)
Definition summary_title : str := [128249%N] ++ py " *Video Summary:*".

(** A world in which no Telegram call fails. *)
Definition telegram_works (w : world) : Prop :=
  forall history c, telegram w history c = true.

(** The messages a list of calls puts on the screen with Markdown. *)
Definition markdown_texts (calls : list call) : list str :=
  omap (fun c => match c with
                 | reply_text t (Some _) | edit_text t (Some _) => Some t
                 | _ => None
                 end) calls.

(** The links a list of calls hands to Gemini. *)
Definition generated (calls : list call) : list str :=
  omap (fun c => match c with
                 | generate_content uri _ => Some uri
                 | _ => None
                 end) calls.

(** The texts the ['Processing...'] message is changed to. *)
Definition edits (calls : list call) : list str :=
  omap (fun c => match c with
                 | edit_text t _ => Some t
                 | _ => None
                 end) calls.

End Bot.

(** ** Vocabulary of the statements *)

Definition all_space (s : str) : Prop := Forall (fun c => isspace c = true) s.

Module ChunkerSpec.
Import Chunker.

(** Where one pass of the loop cuts a text longer than [M]: at the last
    newline of the window [0, M), else at its last space, else at [M]. *)
Inductive cut_at (M : nat) (r : str) : nat -> Prop :=
| cut_newline p :
    p < M -> r !! p = Some newline ->
    (forall j, p < j < M -> r !! j <> Some newline) ->
    cut_at M r p
| cut_space p :
    p < M -> r !! p = Some space ->
    newline ∉ take M r ->
    (forall j, p < j < M -> r !! j <> Some space) ->
    cut_at M r p
| cut_hard :
    newline ∉ take M r -> space ∉ take M r ->
    cut_at M r M.

(** [lead ++ c1 ++ w1 ++ ... ++ cn ++ wn]. *)
Fixpoint weave (lead : str) (chunks gaps : list str) : str :=
  match chunks, gaps with
  | c :: cs, w :: ws => lead ++ c ++ weave w cs ws
  | _, _ => lead
  end.

(** Loop invariant: the chunks collected so far are non-empty and fit. *)
Definition chunks_fit (max_length : Z) (st : str * list str) : Prop :=
  Forall (fun c => c <> [] /\ (py_len c <= max_length)%Z) (snd st).

(** Loop invariant: the text read so far is the chunks collected so far with
    whitespace around them, and the remainder is the rest of the text. *)
Definition woven (text : str) (st : str * list str) : Prop :=
  exists lead gaps,
    length gaps = length (snd st) /\ all_space lead /\ Forall all_space gaps /\
    text = weave lead (snd st) gaps ++ fst st.

(** The chunks with whitespace between consecutive chunks only: nothing
    before the first chunk and nothing after the last. *)
Definition only_between (text : str) (chunks : list str) : Prop :=
  exists gaps,
    length gaps = length chunks /\ Forall all_space gaps /\
    (forall w, last gaps = Some w -> w = []) /\
    text = weave [] chunks gaps.

(** What re-chunking needs of a chunk [c] that is followed by the chunks
    [rest]: it fits, it holds no newline and, unless it is the last one, it
    is shorter than the limit or holds no space. *)
Definition tight (max_length : Z) (c : str) : Prop :=
  (py_len c < max_length)%Z \/ space ∉ c.

Definition settled (max_length : Z) (c : str) (rest : list str) : Prop :=
  (py_len c <= max_length)%Z /\ (newline ∉ c) /\ (rest <> [] -> tight max_length c).

Fixpoint chunks_ok (max_length : Z) (cs : list str) : Prop :=
  match cs with
  | [] => True
  | c :: rest => settled max_length c rest /\ chunks_ok max_length rest
  end.

(** Loop invariant: every chunk collected by the loop fits and is shorter
    than the limit or holds no space. *)
Definition tight_chunks (max_length : Z) (st : str * list str) : Prop :=
  Forall (fun c => (py_len c <= max_length)%Z /\ tight max_length c) (snd st).

(** Loop invariant on a text without newlines. *)
Definition no_newline (st : str * list str) : Prop :=
  (newline ∉ fst st) /\ Forall (fun c => newline ∉ c) (snd st).

(** Re-joining the chunks with single spaces and chunking again gives no
    more chunks than before. *)
Definition rechunk_no_growth (text : str) (max_length : Z) (fuel : nat) : Prop :=
  exists cs,
    split_message fuel text max_length = Some cs /\
    forall fuel', length (join [space] cs) <= fuel' ->
      exists cs',
        split_message fuel' (join [space] cs) max_length = Some cs' /\
        length cs' <= length cs.

(** Number of chunks a final loop state yields. *)
Definition yield (st : str * list str) : nat :=
  length (if truthy (fst st) then snd st ++ [fst st] else snd st).

(** Loop invariant: collected chunks carry no whitespace at their end, nor
    at their start from the second chunk on; once a chunk is collected the
    remainder starts with a character that is not whitespace. *)
Definition trimmed (st : str * list str) : Prop :=
  Forall (fun c => rstrip c = c) (snd st) /\
  (forall i c, snd st !! i = Some c -> 0 < i -> lstrip c = c) /\
  (snd st <> [] -> lstrip (fst st) = fst st).

(** Loop invariant on a text without whitespace: the chunks are slices of
    [M] characters and nothing is dropped. *)
Definition sliced (text : str) (M : nat) (st : str * list str) : Prop :=
  text = concat (snd st) ++ fst st /\
  Forall (fun c => length c = M) (snd st) /\
  Forall (fun c => isspace c = false) (fst st).

End ChunkerSpec.

(** * Proofs *)

(** Closes a decidable goal about concrete data by running its decision
    procedure. *)
Ltac by_computation := apply (bool_decide_unpack _); vm_compute; exact I.

(** ** Strings *)

Section StringFacts.

Lemma isspace_newline : isspace newline = true.
Proof. reflexivity. Qed.

Lemma isspace_space : isspace space = true.
Proof. reflexivity. Qed.

Lemma lstrip_split (s : str) :
  exists w, s = w ++ lstrip s /\ all_space w.
Proof.
  induction s as [|c s IH]; simpl.
  - exists []. split; [done | constructor].
  - destruct (isspace c) eqn:Hc.
    + destruct IH as (w & Hw & Hsp). exists (c :: w). split.
      * simpl. by rewrite <- Hw.
      * by constructor.
    + exists []. split; [done | constructor].
Qed.

Lemma rstrip_split (s : str) :
  exists w, s = rstrip s ++ w /\ all_space w.
Proof.
  induction s as [|c s IH]; simpl.
  - exists []. split; [done | constructor].
  - destruct IH as (w & Hw & Hsp).
    destruct (rstrip s) as [|x t] eqn:Hr.
    + simpl in Hw. subst w. destruct (isspace c) eqn:Hc.
      * exists (c :: s). split; [done | by constructor].
      * exists s. split; [done | done].
    + exists w. split; [| done]. simpl in *. by f_equal.
Qed.

Lemma length_lstrip (s : str) : length (lstrip s) <= length s.
Proof.
  destruct (lstrip_split s) as (w & Hw & _).
  rewrite Hw at 2. rewrite length_app. lia.
Qed.

Lemma length_rstrip (s : str) : length (rstrip s) <= length s.
Proof.
  destruct (rstrip_split s) as (w & Hw & _).
  rewrite Hw at 2. rewrite length_app. lia.
Qed.

Lemma lstrip_head_space (c : N) (s : str) :
  isspace c = true -> length (lstrip (c :: s)) <= length s.
Proof. intros Hc. simpl. rewrite Hc. apply length_lstrip. Qed.

Lemma last_index_Some (c : N) (s : str) (i : nat) :
  last_index c s = Some i ->
  s !! i = Some c /\ forall j, i < j -> s !! j <> Some c.
Proof.
  revert i. induction s as [|x s IH]; intros i; simpl; [done|].
  destruct (last_index c s) as [i'|] eqn:Hl.
  - intros [= <-]. destruct (IH i' eq_refl) as [H1 H2]. split; [done|].
    intros [|j] Hj; [lia|]. simpl. apply H2. lia.
  - destruct (N.eqb_spec x c) as [->|Hne]; [|done].
    intros [= <-]. split; [done|].
    intros [|j] Hj; [lia|]. simpl. clear IH Hj. revert j.
    induction s as [|y s IHs]; intros j; [done|].
    simpl in Hl. destruct (last_index c s) eqn:Hl'; [done|].
    destruct (N.eqb_spec y c) as [->|Hne]; [done|].
    destruct j as [|j]; simpl; [congruence | by apply IHs].
Qed.

Lemma last_index_None (c : N) (s : str) :
  last_index c s = None -> c ∉ s.
Proof.
  induction s as [|x s IH]; simpl; [intros _; apply not_elem_of_nil|].
  destruct (last_index c s); [done|].
  destruct (N.eqb_spec x c) as [->|Hne]; [done|].
  intros _. apply not_elem_of_cons. split; [congruence | by apply IH].
Qed.

Lemma last_index_lt (c : N) (s : str) (i : nat) :
  last_index c s = Some i -> i < length s.
Proof.
  intros H. apply last_index_Some in H as [H _].
  by apply lookup_lt_Some in H.
Qed.

End StringFacts.

(** ** The chunker *)

Section ChunkerFacts.
Import Chunker ChunkerSpec.

Local Open Scope Z_scope.

Lemma adjust_inside (len i : Z) : 0 <= i <= len -> adjust len i = i.
Proof. intros H. unfold adjust. destruct (Z.ltb_spec i 0); lia. Qed.

Lemma slice_to_nat (r : str) (p : nat) :
  (p <= length r)%nat -> slice_to r (Z.of_nat p) = take p r.
Proof.
  intros H. unfold slice_to, py_len. rewrite adjust_inside by lia.
  by rewrite Nat2Z.id.
Qed.

Lemma slice_from_nat (r : str) (p : nat) :
  (p <= length r)%nat -> slice_from r (Z.of_nat p) = drop p r.
Proof.
  intros H. unfold slice_from, py_len. rewrite adjust_inside by lia.
  by rewrite Nat2Z.id.
Qed.

Lemma rfind_window (r : str) (c : N) (m : Z) :
  0 < m -> m < py_len r ->
  rfind r c 0 m =
    match last_index c (take (Z.to_nat m) r) with
    | Some i => Z.of_nat i
    | None => -1
    end.
Proof.
  intros Hm Hlen. unfold rfind.
  rewrite !adjust_inside by (unfold py_len in *; lia).
  simpl. by destruct (last_index _ _).
Qed.

(** One pass cuts at a position described by [cut_at]; the chunk is what is
    before the cut, the new remainder what is after it. *)
Lemma loop_body_cut (m : Z) (r : str) (cs : list str) :
  0 < m -> m < py_len r ->
  exists p : nat,
    cut_at (Z.to_nat m) r p /\
    loop_body m (r, cs) =
      (lstrip (drop p r),
       if truthy (rstrip (take p r)) then cs ++ [rstrip (take p r)] else cs).
Proof.
  intros Hm Hlen. unfold loop_body.
  rewrite !rfind_window by done.
  assert (HM : (Z.to_nat m < length r)%nat) by (unfold py_len in Hlen; lia).
  destruct (last_index newline _) as [i|] eqn:Hn.
  - pose proof (last_index_lt _ _ _ Hn) as Hi.
    rewrite length_take in Hi.
    apply last_index_Some in Hn as [Hn1 Hn2].
    exists i. split.
    + apply cut_newline; [lia | |].
      * rewrite lookup_take_lt in Hn1 by lia. done.
      * intros j Hj Hr. apply (Hn2 j); [lia|].
        by rewrite lookup_take_lt by lia.
    + assert (Hne : (Z.of_nat i =? -1) = false) by lia.
      cbv zeta. rewrite Hne. cbv iota. rewrite Hne.
      rewrite slice_to_nat, slice_from_nat by lia. done.
  - apply last_index_None in Hn. simpl.
    destruct (last_index space _) as [i|] eqn:Hs.
    + pose proof (last_index_lt _ _ _ Hs) as Hi.
      rewrite length_take in Hi.
      apply last_index_Some in Hs as [Hs1 Hs2].
      exists i. split.
      * apply cut_space; [lia | | done |].
        -- rewrite lookup_take_lt in Hs1 by lia. done.
        -- intros j Hj Hr. apply (Hs2 j); [lia|].
           by rewrite lookup_take_lt by lia.
      * assert (Hne : (Z.of_nat i =? -1) = false) by lia.
        rewrite Hne.
        rewrite slice_to_nat, slice_from_nat by lia. done.
    + apply last_index_None in Hs. simpl.
      exists (Z.to_nat m). split; [by apply cut_hard|].
      assert (Hto : slice_to r m = take (Z.to_nat m) r).
      { rewrite <- slice_to_nat by lia. f_equal. lia. }
      assert (Hfrom : slice_from r m = drop (Z.to_nat m) r).
      { rewrite <- slice_from_nat by lia. f_equal. lia. }
      by rewrite Hto, Hfrom.
Qed.

Lemma cut_at_le (M : nat) (r : str) (p : nat) : cut_at M r p -> (p <= M)%nat.
Proof. destruct 1; lia. Qed.

(** A cut at position 0 sits on a whitespace character. *)
Lemma cut_at_0 (M : nat) (r : str) :
  (0 < M)%nat -> cut_at M r 0 -> exists c s, r = c :: s /\ isspace c = true.
Proof.
  intros HM H. inversion H as [p Hp Hr _ | p Hp Hr _ _ | ]; subst; try lia.
  - destruct r as [|c s]; [done|]. simpl in Hr. injection Hr as ->. eauto.
  - destruct r as [|c s]; [done|]. simpl in Hr. injection Hr as ->. eauto.
Qed.

(** The loop invariant behind termination: the remainder gets shorter. *)
Lemma cut_shrinks (M : nat) (r : str) (p : nat) :
  (0 < M)%nat -> cut_at M r p ->
  (length (lstrip (drop p r)) < length r)%nat \/ r = [].
Proof.
  intros HM Hcut. destruct r as [|c s]; [by right|]. left.
  destruct p as [|p].
  - destruct (cut_at_0 _ _ HM Hcut) as (c' & s' & [= <- <-] & Hc).
    rewrite drop_0. pose proof (lstrip_head_space c s Hc). simpl in *. lia.
  - pose proof (length_lstrip (drop (S p) (c :: s))) as H.
    rewrite length_drop in H. simpl in *. lia.
Qed.

End ChunkerFacts.

Section LoopFacts.
Import Chunker ChunkerSpec.

Local Open Scope Z_scope.

Variable max_length : Z.
Hypothesis max_length_pos : 0 < max_length.

Lemma loop_body_shrinks (r : str) (cs : list str) :
  max_length < py_len r ->
  (length (fst (loop_body max_length (r, cs))) < length r)%nat.
Proof using max_length_pos.
  intros Hlen.
  destruct (loop_body_cut max_length r cs) as (p & Hcut & ->); [done..|].
  simpl. destruct (cut_shrinks (Z.to_nat max_length) r p) as [H| ->];
    [lia | done | done |].
  unfold py_len in Hlen. simpl in Hlen. lia.
Qed.

Lemma while_loop_total (fuel : nat) (st : str * list str) :
  (length (fst st) <= fuel)%nat ->
  is_Some (while_loop fuel max_length st).
Proof using max_length_pos.
  revert st. induction fuel as [|fuel IH]; intros [r cs] Hfuel;
    cbn [while_loop fst] in *.
  - destruct (Z.ltb_spec max_length (py_len r)) as [Hlt|_]; [|by eexists].
    unfold py_len in Hlt. lia.
  - destruct (Z.ltb_spec max_length (py_len r)) as [Hlt|_]; [|by eexists].
    apply IH. pose proof (loop_body_shrinks r cs Hlt). lia.
Qed.

(** More fuel does not change a result. *)
Lemma while_loop_fuel (fuel fuel' : nat) (st st' : str * list str) :
  (fuel <= fuel')%nat ->
  while_loop fuel max_length st = Some st' ->
  while_loop fuel' max_length st = Some st'.
Proof.
  revert fuel' st. induction fuel as [|fuel IH]; intros fuel' st Hle; simpl.
  - destruct (Z.ltb_spec max_length (py_len (fst st))) as [Hlt|Hge]; [done|].
    intros [= <-]. destruct fuel'; simpl;
      by destruct (Z.ltb_spec max_length (py_len (fst st))); [lia|].
  - destruct fuel' as [|fuel']; [lia|]. simpl.
    destruct (max_length <? py_len (fst st)); [|done].
    apply IH. lia.
Qed.

(** Invariants of the loop carry over to the state it ends in, where the
    loop condition is false. *)
Lemma while_loop_invariant (P : str * list str -> Prop) :
  (forall r cs, max_length < py_len r -> P (r, cs) ->
                P (loop_body max_length (r, cs))) ->
  forall fuel st st',
    P st -> while_loop fuel max_length st = Some st' ->
    P st' /\ py_len (fst st') <= max_length.
Proof.
  intros Hstep. induction fuel as [|fuel IH]; intros [r cs] st' HP; simpl.
  - destruct (Z.ltb_spec max_length (py_len r)); [done|].
    intros [= <-]. done.
  - destruct (Z.ltb_spec max_length (py_len r)) as [Hlt|Hge].
    + apply IH. by apply Hstep.
    + intros [= <-]. done.
Qed.

Lemma split_message_total (fuel : nat) (text : str) :
  (length text <= fuel)%nat ->
  is_Some (split_message fuel text max_length).
Proof using max_length_pos.
  intros Hfuel. unfold split_message.
  destruct (py_len text <=? max_length); [by eexists|].
  destruct (while_loop_total fuel (text, []) Hfuel) as [[r cs] ->].
  by eexists.
Qed.

Lemma split_message_cases (fuel : nat) (text : str) (cs : list str) :
  split_message fuel text max_length = Some cs ->
  (py_len text <= max_length /\ cs = [text]) \/
  (max_length < py_len text /\
   exists r chunks,
     while_loop fuel max_length (text, []) = Some (r, chunks) /\
     cs = if truthy r then chunks ++ [r] else chunks).
Proof.
  unfold split_message.
  destruct (Z.leb_spec (py_len text) max_length) as [Hle|Hgt].
  - intros [= <-]. by left.
  - destruct (while_loop _ _ _) as [[r chunks]|]; [|done].
    intros [= <-]. right. eauto.
Qed.

Lemma split_message_fuel (fuel fuel' : nat) (text : str) (cs : list str) :
  (fuel <= fuel')%nat ->
  split_message fuel text max_length = Some cs ->
  split_message fuel' text max_length = Some cs.
Proof.
  intros Hle. unfold split_message.
  destruct (py_len text <=? max_length); [done|].
  destruct (while_loop fuel _ _) as [[r chunks]|] eqn:Hw; [|done].
  by rewrite (while_loop_fuel _ _ _ _ Hle Hw).
Qed.

Lemma chunks_fit_step (r : str) (cs : list str) :
  max_length < py_len r -> chunks_fit max_length (r, cs) ->
  chunks_fit max_length (loop_body max_length (r, cs)).
Proof using max_length_pos.
  intros Hlen Hfit.
  destruct (loop_body_cut max_length r cs) as (p & Hcut & ->); [done..|].
  unfold chunks_fit in *. simpl in *.
  destruct (rstrip (take p r)) as [|x t] eqn:Hchunk; simpl; [done|].
  apply Forall_app. split; [done|]. constructor; [|constructor].
  split; [done|].
  pose proof (length_rstrip (take p r)) as H. rewrite Hchunk in H.
  rewrite length_take in H. apply cut_at_le in Hcut.
  unfold py_len. lia.
Qed.

Lemma weave_snoc (lead : str) (cs gaps : list str) (c w : str) :
  length gaps = length cs ->
  weave lead (cs ++ [c]) (gaps ++ [w]) = weave lead cs gaps ++ c ++ w.
Proof.
  revert lead gaps. induction cs as [|c' cs IH]; intros lead [|w' ws] Hlen;
    simplify_eq/=; [done|].
  rewrite IH by done. by rewrite <- !app_assoc.
Qed.

(** Whitespace after the last chunk joins the gap that is already there. *)
Lemma weave_absorb (lead : str) (cs gaps : list str) (g : str) :
  length gaps = length cs ->
  all_space lead -> Forall all_space gaps -> all_space g ->
  exists lead' gaps',
    length gaps' = length cs /\ all_space lead' /\ Forall all_space gaps' /\
    weave lead' cs gaps' = weave lead cs gaps ++ g.
Proof.
  revert lead gaps. induction cs as [|c cs IH]; intros lead [|w ws] Hlen Hl Hg Hsp;
    simplify_eq/=.
  - exists (lead ++ g), []. split_and!; [done | by apply Forall_app | done | done].
  - apply Forall_cons in Hg as [Hw Hws].
    destruct (IH w ws) as (w' & ws' & Hlen' & Hw' & Hws' & Heq); [done..|].
    exists lead, (w' :: ws'). split_and!; simpl; [by f_equal | done | by constructor |].
    rewrite Heq. by rewrite <- !app_assoc.
Qed.

Lemma woven_step (text r : str) (cs : list str) :
  max_length < py_len r -> woven text (r, cs) ->
  woven text (loop_body max_length (r, cs)).
Proof using max_length_pos.
  intros Hlen (lead & gaps & Hgl & Hlead & Hgaps & Htext).
  cbn [fst snd] in *. unfold woven.
  destruct (loop_body_cut max_length r cs) as (p & Hcut & ->); [done..|].
  cbn [fst snd].
  destruct (rstrip_split (take p r)) as (tw & Htw & Htws).
  destruct (lstrip_split (drop p r)) as (lw & Hlw & Hlws).
  assert (Hr : r = rstrip (take p r) ++ (tw ++ lw) ++ lstrip (drop p r)).
  { rewrite <- (take_drop p r) at 1. rewrite Htw at 1. rewrite Hlw at 1.
    by rewrite <- !app_assoc. }
  assert (Hsp : all_space (tw ++ lw)) by by apply Forall_app.
  destruct (rstrip (take p r)) as [|x t] eqn:Hchunk; simpl.
  - destruct (weave_absorb lead cs gaps (tw ++ lw))
      as (lead' & gaps' & Hlen' & Hlead' & Hgaps' & Heq); [done..|].
    exists lead', gaps'. split_and!; [done..|]. simpl.
    rewrite Heq, Htext. rewrite Hr at 1. simpl. by rewrite <- !app_assoc.
  - exists lead, (gaps ++ [tw ++ lw]). simpl. split_and!.
    + rewrite !length_app. simpl. lia.
    + done.
    + apply Forall_app. split; [done | by constructor].
    + rewrite weave_snoc by done. rewrite Htext. rewrite Hr at 1.
      by rewrite <- !app_assoc.
Qed.

(** *** Re-chunking a text without newlines *)

Lemma elem_of_rstrip (c : N) (s : str) : c ∈ rstrip s -> c ∈ s.
Proof.
  destruct (rstrip_split s) as (w & Hw & _). rewrite Hw at 2.
  rewrite elem_of_app. by left.
Qed.

Lemma elem_of_lstrip (c : N) (s : str) : c ∈ lstrip s -> c ∈ s.
Proof.
  destruct (lstrip_split s) as (w & Hw & _). rewrite Hw at 2.
  rewrite elem_of_app. by right.
Qed.

Lemma elem_of_take_list (c : N) (n : nat) (s : str) : c ∈ take n s -> c ∈ s.
Proof. rewrite <- (take_drop n s) at 2. rewrite elem_of_app. by left. Qed.

Lemma elem_of_drop_list (c : N) (n : nat) (s : str) : c ∈ drop n s -> c ∈ s.
Proof. rewrite <- (take_drop n s) at 2. rewrite elem_of_app. by right. Qed.

Lemma no_newline_step (r : str) (cs : list str) :
  max_length < py_len r -> no_newline (r, cs) ->
  no_newline (loop_body max_length (r, cs)).
Proof using max_length_pos.
  intros Hlen [Hr Hcs]. cbn [fst snd] in *.
  destruct (loop_body_cut max_length r cs) as (p & Hcut & ->); [done..|].
  split; cbn [fst snd].
  - intros H. by apply elem_of_lstrip, elem_of_drop_list in H.
  - destruct (rstrip (take p r)) as [|x t] eqn:Hchunk; simpl; [done|].
    apply Forall_app. split; [done|]. constructor; [|constructor].
    rewrite <- Hchunk. intros H. by apply elem_of_rstrip, elem_of_take_list in H.
Qed.

Lemma tight_chunks_step (r : str) (cs : list str) :
  max_length < py_len r -> tight_chunks max_length (r, cs) ->
  tight_chunks max_length (loop_body max_length (r, cs)).
Proof using max_length_pos.
  intros Hlen Hcs. unfold tight_chunks in *. cbn [fst snd] in *.
  destruct (loop_body_cut max_length r cs) as (p & Hcut & ->); [done..|].
  cbn [fst snd].
  destruct (rstrip (take p r)) as [|x t] eqn:Hchunk; simpl; [done|].
  apply Forall_app. split; [done|]. constructor; [|constructor].
  rewrite <- Hchunk.
  pose proof (length_rstrip (take p r)) as Hl. rewrite length_take in Hl.
  pose proof (cut_at_le _ _ _ Hcut) as Hp.
  split.
  - unfold py_len. lia.
  - destruct Hcut as [p Hp' _ _ | p Hp' _ _ _ | _ Hsp].
    + left. unfold py_len. lia.
    + left. unfold py_len. lia.
    + right. intros H. by apply elem_of_rstrip in H.
Qed.

Lemma chunks_ok_snoc (cs : list str) (c : str) :
  Forall (fun c => py_len c <= max_length /\ tight max_length c) cs ->
  Forall (fun c => newline ∉ c) (cs ++ [c]) ->
  py_len c <= max_length ->
  chunks_ok max_length (cs ++ [c]).
Proof.
  intros Hcs Hn Hc. induction Hcs as [|c' cs [H1 H2] _ IH]; simpl in *.
  - apply Forall_cons in Hn as [Hn _]. split; [|done]. by split_and!.
  - apply Forall_cons in Hn as [Hn Hns]. split; [|by apply IH]. by split_and!.
Qed.

Lemma chunks_ok_strong (cs : list str) :
  Forall (fun c => py_len c <= max_length /\ tight max_length c) cs ->
  Forall (fun c => newline ∉ c) cs ->
  chunks_ok max_length cs.
Proof.
  intros Hcs Hn. induction Hcs as [|c' cs [H1 H2] _ IH]; simpl; [done|].
  apply Forall_cons in Hn as [Hn Hns]. split; [|by apply IH]. by split_and!.
Qed.

(** Chunks that hold no newline are ready for re-chunking. *)
Lemma split_message_chunks_ok (fuel : nat) (text : str) (cs : list str) :
  split_message fuel text max_length = Some cs ->
  Forall (fun c => newline ∉ c) cs ->
  chunks_ok max_length cs.
Proof using max_length_pos.
  intros Hsplit Hn.
  apply split_message_cases in Hsplit as [[Hle ->] | (Hgt & r & chunks & Hloop & ->)].
  - apply Forall_cons in Hn as [Hn _]. simpl. split; [|done]. by split_and!.
  - apply (while_loop_invariant (tight_chunks max_length)) in Hloop
      as [Hcs Hlen]; [| apply tight_chunks_step | by constructor].
    unfold tight_chunks in Hcs. cbn [fst snd] in *. destruct (truthy r).
    + by apply chunks_ok_snoc.
    + by apply chunks_ok_strong.
Qed.

(** A text without newlines has chunks without newlines. *)
Lemma split_message_no_newline (fuel : nat) (text : str) (cs : list str) :
  newline ∉ text ->
  split_message fuel text max_length = Some cs ->
  Forall (fun c => newline ∉ c) cs.
Proof using max_length_pos.
  intros Hn Hsplit.
  apply split_message_cases in Hsplit as [[Hle ->] | (Hgt & r & chunks & Hloop & ->)].
  - by repeat constructor.
  - apply (while_loop_invariant no_newline) in Hloop
      as [[Hr Hcs] Hlen]; [| apply no_newline_step | by split].
    cbn [fst snd] in *. destruct (truthy r); [|done].
    apply Forall_app. split; [done|]. by repeat constructor.
Qed.

End LoopFacts.

Section Rechunk.
Import Chunker ChunkerSpec.

Local Open Scope Z_scope.

Variable max_length : Z.
Hypothesis max_length_pos : 0 < max_length.

Lemma lstrip_app (x y : str) :
  (lstrip x <> [] /\ lstrip (x ++ y) = lstrip x ++ y) \/
  (lstrip x = [] /\ lstrip (x ++ y) = lstrip y).
Proof.
  induction x as [|c x IH]; simpl; [by right|].
  destruct (isspace c); [done|]. by left.
Qed.

Lemma settled_suffix (w s : str) (rest : list str) :
  settled max_length (w ++ s) rest -> settled max_length s rest.
Proof.
  intros (Hlen & Hn & Ht). unfold py_len in *. rewrite length_app in Hlen.
  split_and!.
  - unfold py_len. lia.
  - intros H. apply Hn. rewrite elem_of_app. by right.
  - intros Hrest. destruct (Ht Hrest) as [H|H].
    + left. unfold py_len in *. rewrite length_app in H. lia.
    + right. intros H'. apply H. rewrite elem_of_app. by right.
Qed.

Lemma settled_nil (rest : list str) : settled max_length [] rest.
Proof using max_length_pos.
  split_and!.
  - unfold py_len. simpl. lia.
  - apply not_elem_of_nil.
  - intros _. right. apply not_elem_of_nil.
Qed.

(** Leading whitespace is stripped from a chunk and the chunks after it:
    what is left is again a piece of a chunk followed by whole chunks. *)
Lemma lstrip_into (rest : list str) (x : str) :
  settled max_length x rest -> chunks_ok max_length rest ->
  exists s' rest',
    lstrip (x ++ sep_tail [space] rest) = s' ++ sep_tail [space] rest' /\
    (length rest' <= length rest)%nat /\
    settled max_length s' rest' /\ chunks_ok max_length rest'.
Proof using max_length_pos.
  revert x. induction rest as [|c rest IH]; intros x Hx Hok.
  - exists (lstrip x), []. simpl. rewrite !app_nil_r. split_and!; [done..| |done].
    destruct (lstrip_split x) as (w & Hw & _). rewrite Hw in Hx.
    by apply settled_suffix in Hx.
  - destruct (lstrip_app x (sep_tail [space] (c :: rest))) as [[_ ->] | [_ ->]].
    + exists (lstrip x), (c :: rest). split_and!; [done..| |done].
      destruct (lstrip_split x) as (w & Hw & _). rewrite Hw in Hx.
      by apply settled_suffix in Hx.
    + destruct Hok as [Hc Hok]. simpl.
      destruct (IH c Hc Hok) as (s' & rest' & Heq & Hlen & Hs' & Hok').
      exists s', rest'. split_and!; [done | lia | done..].
Qed.

Lemma drop_into (rest : list str) (q : nat) :
  chunks_ok max_length rest -> rest <> [] ->
  exists s' rest',
    lstrip (drop q (sep_tail [space] rest)) = s' ++ sep_tail [space] rest' /\
    (length rest' < length rest)%nat /\
    settled max_length s' rest' /\ chunks_ok max_length rest'.
Proof using max_length_pos.
  revert q. induction rest as [|c rest IH]; intros q Hok Hne; [done|].
  destruct Hok as [Hc Hok].
  destruct q as [|q].
  - rewrite drop_0. simpl.
    destruct (lstrip_into rest c Hc Hok) as (s' & rest' & Heq & Hlen & Hs' & Hok').
    exists s', rest'. split_and!; [done | simpl; lia | done..].
  - simpl. destruct (decide (q <= length c)%nat) as [Hq|Hq].
    + rewrite drop_app_le by done.
      assert (Hd : settled max_length (drop q c) rest).
      { apply (settled_suffix (take q c)). by rewrite take_drop. }
      destruct (lstrip_into rest (drop q c) Hd Hok)
        as (s' & rest' & Heq & Hlen & Hs' & Hok').
      exists s', rest'. split_and!; [done | simpl; lia | done..].
    + rewrite drop_app_ge by lia.
      destruct rest as [|c' rest'].
      * exists [], []. simpl. rewrite drop_nil. split_and!; [done | lia | | done].
        apply settled_nil.
      * destruct (IH (q - length c)%nat Hok) as (s' & rest'' & Heq & Hlen & Hs' & Hok');
          [done|].
        exists s', rest''. split_and!; [done | simpl in *; lia | done..].
Qed.

Lemma chunks_ok_no_newline (rest : list str) :
  chunks_ok max_length rest -> newline ∉ sep_tail [space] rest.
Proof.
  induction rest as [|c rest IH]; simpl; [intros _; apply not_elem_of_nil|].
  intros [(_ & Hn & _) Hok].
  rewrite not_elem_of_cons, not_elem_of_app. split_and!; [done | done | by apply IH].
Qed.

(** Where a pass cuts the re-joined text: never inside the piece [s] of the
    current chunk. *)
Lemma cut_past_chunk (s : str) (rest : list str) (p : nat) :
  settled max_length s rest -> chunks_ok max_length rest ->
  max_length < py_len (s ++ sep_tail [space] rest) ->
  cut_at (Z.to_nat max_length) (s ++ sep_tail [space] rest) p ->
  rest <> [] /\
  exists q, drop p (s ++ sep_tail [space] rest) = drop q (sep_tail [space] rest).
Proof using max_length_pos.
  intros (Hlen & Hn & Ht) Hok Hlong Hcut.
  assert (Hne : rest <> []).
  { intros ->. simpl in Hlong. rewrite app_nil_r in Hlong. lia. }
  split; [done|]. specialize (Ht Hne).
  assert (Hsep : (s ++ sep_tail [space] rest) !! length s = Some space).
  { rewrite lookup_app_r by lia. rewrite Nat.sub_diag.
    destruct rest as [|c rest]; [done|]. done. }
  unfold py_len in *.
  assert (Hp : (length s <= p)%nat).
  { destruct Hcut as [p Hp Hnl _ | p Hp Hsp _ Hlast | _ Hsp].
    - exfalso. apply list_elem_of_lookup_2 in Hnl.
      apply elem_of_app in Hnl as [H|H]; [done|].
      by apply chunks_ok_no_newline in H.
    - destruct (decide (length s <= p)%nat) as [|Hlt]; [done|]. exfalso.
      destruct Ht as [Ht|Ht].
      + unfold py_len in Ht. apply (Hlast (length s)); [lia | done].
      + apply Ht. rewrite lookup_app_l in Hsp by lia.
        by eapply list_elem_of_lookup_2.
    - destruct (decide (length s <= Z.to_nat max_length)%nat) as [|Hlt]; [|lia].
      destruct (decide (length s = Z.to_nat max_length)) as [|Hneq]; [lia|].
      exfalso. apply Hsp. apply elem_of_take. exists (length s). split; [done|lia]. }
  exists (p - length s)%nat. by rewrite drop_app_ge by done.
Qed.

Lemma yield_le (r : str) (cs : list str) : (yield (r, cs) <= S (length cs))%nat.
Proof.
  unfold yield. simpl. destruct (truthy r); [|lia].
  rewrite length_app. simpl. lia.
Qed.

(** Each pass over the re-joined text uses up at least one of the chunks it
    was joined from and emits at most one. *)
Lemma rechunk_bound (fuel : nat) (s : str) (rest acc : list str)
    (st' : str * list str) :
  settled max_length s rest -> chunks_ok max_length rest ->
  while_loop fuel max_length (s ++ sep_tail [space] rest, acc) = Some st' ->
  (yield st' <= length acc + 1 + length rest)%nat.
Proof using max_length_pos.
  revert s rest acc. induction fuel as [|fuel IH]; intros s rest acc Hs Hok;
    cbn [while_loop fst].
  - destruct (max_length <? _); [done|]. intros [= <-].
    pose proof (yield_le (s ++ sep_tail [space] rest) acc). lia.
  - destruct (Z.ltb_spec max_length (py_len (s ++ sep_tail [space] rest)))
      as [Hlong|_].
    + destruct (loop_body_cut max_length (s ++ sep_tail [space] rest) acc)
        as (p & Hcut & ->); [done..|].
      destruct (cut_past_chunk s rest p Hs Hok Hlong Hcut) as (Hne & q & ->).
      destruct (drop_into rest q Hok Hne) as (s' & rest' & -> & Hlen & Hs' & Hok').
      intros Hloop. apply IH in Hloop; [|done..].
      destruct (truthy _); [rewrite length_app in Hloop; simpl in Hloop|]; lia.
    + intros [= <-].
      pose proof (yield_le (s ++ sep_tail [space] rest) acc). lia.
Qed.

End Rechunk.

(** ** The chunker: results *)

Section ChunkerResults.
Import Chunker ChunkerSpec.

Local Open Scope Z_scope.

(** Without the precondition the loop need not end: with [max_length = 0]
    a pass leaves ["a"] as it is. *)
Remark split_message_zero_diverges (fuel : nat) :
  split_message fuel (py "a") 0 = None.
Proof.
  unfold split_message. simpl.
  induction fuel as [|fuel IH]; [done|]. exact IH.
Qed.

(** The boundary cases of the specification: a text of exactly
    [max_length] characters is one chunk, one more character without
    whitespace is cut at [max_length]; a newline is preferred to a later
    space. *)
Example split_message_boundary :
  split_message 5 (py "abcde") 5 = Some [py "abcde"] /\
  split_message 6 (py "abcdef") 5 = Some [py "abcde"; py "f"] /\
  split_message 12 (py "aa" ++ [newline] ++ py "bb     cc") 5
  = Some [py "aa"; py "bb"; py "cc"] /\
  split_message 8 (py "aa bb cc") 5 = Some [py "aa"; py "bb cc"].
Proof. by vm_compute. Qed.

(** C1, as stated, fails on the empty text: [split_message] then returns
    the one-element list that holds the empty string. *)
Lemma split_message_empty_text_has_empty_chunk :
  ~ (forall (text : str) (max_length : Z) (fuel : nat),
        0 < max_length -> (length text <= fuel)%nat ->
        exists cs, split_message fuel text max_length = Some cs /\
                   Forall (fun c => py_len c <= max_length /\ c <> []) cs).
Proof.
  intros H. destruct (H [] 4000 0%nat) as (cs & Hcs & Hall); [lia | done |].
  vm_compute in Hcs. injection Hcs as <-.
  apply Forall_cons in Hall as [[_ Hne] _]. done.
Qed.

(** C1 (amended): for every text and every [max_length > 0],
    [split_message] returns a list whose elements all have length at most
    [max_length]; when the text is not empty, none of them is empty. *)
Theorem split_message_chunks_fit (text : str) (max_length : Z) (fuel : nat) :
  0 < max_length -> (length text <= fuel)%nat ->
  exists cs,
    split_message fuel text max_length = Some cs /\
    Forall (fun c => py_len c <= max_length) cs /\
    (text <> [] -> Forall (fun c => c <> []) cs).
Proof.
  intros Hm Hfuel.
  destruct (split_message_total max_length Hm fuel text Hfuel) as [cs Hcs].
  exists cs. split; [done|].
  apply split_message_cases in Hcs as [[Hle ->] | (Hgt & r & chunks & Hloop & ->)].
  - split; [by constructor|]. intros Hne. by constructor.
  - apply (while_loop_invariant max_length (chunks_fit max_length)) in Hloop
      as [Hfit Hlen]; [| by apply chunks_fit_step | by constructor].
    unfold chunks_fit in Hfit. cbn [fst snd] in *.
    assert (Hall : Forall (fun c => c <> [] /\ py_len c <= max_length)
                     (if truthy r then chunks ++ [r] else chunks)).
    { destruct r as [|x r]; simpl; [done|].
      apply Forall_app. split; [done|]. by constructor. }
    split; [|intros _]; eapply Forall_impl; try exact Hall; by intros c [? ?].
Qed.

Lemma split_message_chunks_fit_witness :
  exists cs,
    split_message 11 (py "hello world") 5 = Some cs /\
    Forall (fun c => py_len c <= 5) cs /\
    (py "hello world" <> [] -> Forall (fun c => c <> []) cs).
Proof.
  apply split_message_chunks_fit; [lia | vm_compute; lia].
Defined.

(** C2: a text no longer than [max_length] (with [max_length > 0]) comes
    back as the one-element list holding the text itself, unchanged. *)
Theorem split_message_short (s : str) (max_length : Z) (fuel : nat) :
  0 < max_length -> py_len s <= max_length ->
  split_message fuel s max_length = Some [s].
Proof.
  intros _ Hle. unfold split_message.
  by destruct (Z.leb_spec (py_len s) max_length); [|lia].
Qed.

Lemma split_message_short_witness :
  split_message 0 (py "hello") 5 = Some [py "hello"].
Proof.
  apply split_message_short; [lia | vm_compute; discriminate].
Defined.

(** C3: for [max_length > 0] every pass of the loop leaves a strictly
    shorter remainder, so the loop ends: [len(text)] passes are always
    enough for [split_message] to return, and allowing more passes does not
    change what it returns. *)
Theorem split_message_terminates (text : str) (max_length : Z) :
  0 < max_length ->
  (forall r cs, max_length < py_len r ->
     (length (fst (loop_body max_length (r, cs))) < length r)%nat) /\
  (forall fuel, (length text <= fuel)%nat ->
     exists cs,
       split_message fuel text max_length = Some cs /\
       forall fuel', (fuel <= fuel')%nat ->
         split_message fuel' text max_length = Some cs).
Proof.
  intros Hm. split.
  - intros r cs. by apply loop_body_shrinks.
  - intros fuel Hfuel.
    destruct (split_message_total max_length Hm fuel text Hfuel) as [cs Hcs].
    exists cs. split; [done|]. intros fuel' Hle.
    by apply (split_message_fuel max_length fuel).
Qed.

Lemma split_message_terminates_witness :
  (forall r cs, 4 < py_len r ->
     (length (fst (loop_body 4 (r, cs))) < length r)%nat) /\
  (forall fuel, (length (py "one two three") <= fuel)%nat ->
     exists cs,
       split_message fuel (py "one two three") 4 = Some cs /\
       forall fuel', (fuel <= fuel')%nat ->
         split_message fuel' (py "one two three") 4 = Some cs).
Proof.
  apply split_message_terminates. lia.
Defined.

(** C4, as stated, fails: whitespace is also dropped after the last chunk
    (and before the first), not only between consecutive chunks. *)
Lemma split_message_drops_trailing_space :
  ~ (forall (text : str) (max_length : Z) (fuel : nat),
        0 < max_length -> (length text <= fuel)%nat ->
        exists cs, split_message fuel text max_length = Some cs /\
                   only_between text cs).
Proof.
  intros H. destruct (H (py "abcd   ") 4 7%nat) as (cs & Hcs & Hbetween);
    [lia | vm_compute; lia |].
  vm_compute in Hcs. injection Hcs as <-.
  destruct Hbetween as (gaps & Hlen & _ & Hlast & Heq).
  destruct gaps as [|w [|w' gaps]]; simplify_eq/=.
  specialize (Hlast w eq_refl). subst w. vm_compute in Heq. discriminate.
Qed.

(** C4 (amended): for every text and every [max_length > 0] the chunks
    are, in order, non-overlapping pieces of the text, and the text is
    exactly [lead ++ c1 ++ w1 ++ ... ++ cn ++ wn] where [lead] and every
    [wi] consist of whitespace only: what is dropped before the first
    chunk, between consecutive chunks and after the last chunk is
    whitespace, and putting it back rebuilds the text. *)
Theorem split_message_weave (text : str) (max_length : Z) (fuel : nat) :
  0 < max_length -> (length text <= fuel)%nat ->
  exists cs,
    split_message fuel text max_length = Some cs /\
    exists lead gaps,
      length gaps = length cs /\ all_space lead /\ Forall all_space gaps /\
      text = weave lead cs gaps.
Proof.
  intros Hm Hfuel.
  destruct (split_message_total max_length Hm fuel text Hfuel) as [cs Hcs].
  exists cs. split; [done|].
  apply split_message_cases in Hcs as [[Hle ->] | (Hgt & r & chunks & Hloop & ->)].
  - exists [], [[]]. simpl. rewrite app_nil_r.
    split_and!; [done | constructor | by repeat constructor | done].
  - apply (while_loop_invariant max_length (woven text)) in Hloop
      as [(lead & gaps & Hlen & Hlead & Hgaps & Htext) _];
      [| by apply woven_step |].
    + cbn [fst snd] in *. destruct r as [|x r]; simpl.
      * exists lead, gaps. rewrite app_nil_r in Htext. done.
      * exists lead, (gaps ++ [[]]). split_and!.
        -- rewrite !length_app. simpl. lia.
        -- done.
        -- apply Forall_app. split; [done|]. by repeat constructor.
        -- rewrite weave_snoc by done. by rewrite app_nil_r.
    + exists [], []. simpl. split_and!; [done | constructor | constructor | done].
Qed.

Lemma split_message_weave_witness :
  exists cs,
    split_message 7 (py "abcd   ") 4 = Some cs /\
    exists lead gaps,
      length gaps = length cs /\ all_space lead /\ Forall all_space gaps /\
      py "abcd   " = weave lead cs gaps.
Proof.
  apply split_message_weave; [lia | vm_compute; lia].
Defined.

(** C9, as stated, fails twice over.  A chunk cut at a newline can hold
    earlier newlines, and re-chunking cuts at them: 4 chunks become 5.
    And a text of whitespace only yields no chunk, while the empty
    re-joined text yields one. *)
Lemma rechunk_grows :
  ~ rechunk_no_growth
      (py "a" ++ [newline] ++ py "b" ++ [newline] ++ py "ccccccccccccc") 5 17 /\
  ~ rechunk_no_growth (py "     ") 3 5.
Proof.
  split; intros (cs & Hcs & Hre); vm_compute in Hcs; injection Hcs as <-.
  - destruct (Hre 19%nat) as (cs' & Hcs' & Hlen); [vm_compute; lia|].
    vm_compute in Hcs'. injection Hcs' as <-. simpl in Hlen. lia.
  - destruct (Hre 0%nat) as (cs' & Hcs' & Hlen); [vm_compute; lia|].
    vm_compute in Hcs'. injection Hcs' as <-. simpl in Hlen. lia.
Qed.

(** C9 (amended): for every text and every [max_length > 0], if
    [split_message] returns at least one chunk and no chunk holds a newline
    character (as is the case when the text holds none), then re-joining
    the chunks with single spaces and chunking again returns no more
    chunks than before. *)
Theorem rechunk_without_newline_no_growth
    (text : str) (max_length : Z) (fuel : nat) :
  0 < max_length -> (length text <= fuel)%nat ->
  exists cs,
    split_message fuel text max_length = Some cs /\
    (newline ∉ text -> Forall (fun c => newline ∉ c) cs) /\
    (cs <> [] -> Forall (fun c => newline ∉ c) cs ->
     forall fuel', (length (join [space] cs) <= fuel')%nat ->
       exists cs',
         split_message fuel' (join [space] cs) max_length = Some cs' /\
         (length cs' <= length cs)%nat).
Proof.
  intros Hm Hfuel.
  destruct (split_message_total max_length Hm fuel text Hfuel) as [cs Hcs].
  exists cs. split_and!; [done | |].
  { intros Hn. by apply (split_message_no_newline max_length Hm fuel text). }
  intros Hne Hn fuel' Hfuel'.
  apply (split_message_chunks_ok max_length Hm) in Hcs; [|done].
  destruct cs as [|c rest]; [done|]. destruct Hcs as [Hc Hok].
  destruct (split_message_total max_length Hm fuel' _ Hfuel') as [cs' Hcs'].
  exists cs'. split; [done|].
  apply split_message_cases in Hcs' as [[_ ->] | (_ & r & chunks & Hloop & ->)].
  - simpl. lia.
  - apply (rechunk_bound max_length Hm) in Hloop; [|done..].
    unfold yield in Hloop. simpl in *. lia.
Qed.

Lemma rechunk_without_newline_no_growth_witness :
  exists cs,
    split_message 12 (py "aa" ++ [newline] ++ py "bb     cc") 5 = Some cs /\
    (newline ∉ py "aa" ++ [newline] ++ py "bb     cc" ->
     Forall (fun c => newline ∉ c) cs) /\
    (cs <> [] -> Forall (fun c => newline ∉ c) cs ->
     forall fuel', (length (join [space] cs) <= fuel')%nat ->
       exists cs',
         split_message fuel' (join [space] cs) 5 = Some cs' /\
         (length cs' <= length cs)%nat).
Proof.
  apply rechunk_without_newline_no_growth; [lia | vm_compute; lia].
Defined.

End ChunkerResults.

(** ** The link matcher *)

Section MatcherFacts.
Import Matcher.

Lemma strip_prefix_Some (l s s' : str) :
  strip_prefix l s = Some s' <-> s = l ++ s'.
Proof.
  revert s. induction l as [|x l IH]; intros s; simpl.
  - split; [by intros [= ->] | by intros ->].
  - destruct s as [|y s]; [done|].
    destruct (N.eqb_spec x y) as [->|Hne].
    + rewrite IH. split; [by intros -> | by intros [= ->]].
    + split; [done | intros [= -> _]; done].
Qed.

Lemma strip_prefix_app (l s : str) : strip_prefix l (l ++ s) = Some s.
Proof. by apply strip_prefix_Some. Qed.

(** The matcher is sound for the language of the pattern: a success splits
    the input into a matched head and a rest the continuation accepted. *)
Lemma rep_sound {A : Type} (f : str -> (str -> option A) -> option A)
    (L : str -> Prop) :
  (forall s k a, f s k = Some a ->
     exists s1 s2, s = s1 ++ s2 /\ L s1 /\ k s2 = Some a) ->
  forall n s k a, rep f n s k = Some a ->
    exists s1 s2, s = s1 ++ s2 /\ power n L s1 /\ k s2 = Some a.
Proof.
  intros Hf. induction n as [|n IH]; intros s k a; simpl.
  - intros Hk. by exists [], s.
  - intros H. apply Hf in H as (s1 & s2 & -> & HL & H).
    apply IH in H as (s3 & s4 & -> & Hp & Hk).
    exists (s1 ++ s3), s4. rewrite <- app_assoc. split_and!; [done | | done].
    by exists s1, s3.
Qed.

Lemma bt_sound {A : Type} (r : regex) (s : str) (k : str -> option A) (a : A) :
  bt r s k = Some a ->
  exists s1 s2, s = s1 ++ s2 /\ matches r s1 /\ k s2 = Some a.
Proof.
  revert s k a. induction r as [l | ranges | r1 IH1 r2 IH2 | r1 IH1 r2 IH2
                               | r1 IH1 | n r1 IH1 | r1 IH1];
    intros s k a; simpl.
  - destruct (strip_prefix l s) as [s'|] eqn:Hp; [|done].
    apply strip_prefix_Some in Hp as ->. intros Hk. by exists l, s'.
  - destruct s as [|c s]; [done|].
    destruct (in_class ranges c) eqn:Hc; [|done].
    intros Hk. exists [c], s. split_and!; [done | by exists c | done].
  - intros H. apply IH1 in H as (s1 & s2 & -> & H1 & H).
    apply IH2 in H as (s3 & s4 & -> & H2 & Hk).
    exists (s1 ++ s3), s4. rewrite <- app_assoc. split_and!; [done | | done].
    by exists s1, s3.
  - destruct (bt r1 s k) as [a'|] eqn:H1.
    + intros [= ->]. apply IH1 in H1 as (s1 & s2 & -> & H1 & Hk).
      exists s1, s2. split_and!; [done | by left | done].
    + intros H. apply IH2 in H as (s1 & s2 & -> & H2 & Hk).
      exists s1, s2. split_and!; [done | by right | done].
  - destruct (bt r1 s k) as [a'|] eqn:H1.
    + intros [= ->]. apply IH1 in H1 as (s1 & s2 & -> & H1 & Hk).
      exists s1, s2. split_and!; [done | by left | done].
    + intros Hk. exists [], s. split_and!; [done | by right | done].
  - by apply rep_sound.
  - apply IH1.
Qed.

(** And complete: when some head of the input is in the language and the
    continuation accepts what follows it, the matcher succeeds. *)
Lemma rep_complete {A : Type} (f : str -> (str -> option A) -> option A)
    (L : str -> Prop) :
  (forall s1 s2 k, L s1 -> is_Some (k s2) -> is_Some (f (s1 ++ s2) k)) ->
  forall n s1 s2 k, power n L s1 -> is_Some (k s2) ->
    is_Some (rep f n (s1 ++ s2) k).
Proof.
  intros Hf. induction n as [|n IH]; intros s1 s2 k; simpl.
  - by intros ->.
  - intros (s3 & s4 & -> & HL & Hp) Hk. rewrite <- app_assoc.
    apply Hf; [done|]. by apply IH.
Qed.

Lemma bt_complete {A : Type} (r : regex) (s1 s2 : str) (k : str -> option A) :
  matches r s1 -> is_Some (k s2) -> is_Some (bt r (s1 ++ s2) k).
Proof.
  revert s1 s2 k. induction r as [l | ranges | r1 IH1 r2 IH2 | r1 IH1 r2 IH2
                                 | r1 IH1 | n r1 IH1 | r1 IH1];
    intros s1 s2 k; simpl.
  - intros -> Hk. by rewrite strip_prefix_app.
  - intros (c & -> & Hc) Hk. simpl. by rewrite Hc.
  - intros (s3 & s4 & -> & H1 & H2) Hk. rewrite <- app_assoc.
    apply IH1; [done|]. by apply IH2.
  - intros [H|H] Hk.
    + destruct (IH1 s1 s2 k H Hk) as [a ->]. by eexists.
    + destruct (bt r1 (s1 ++ s2) k); [by eexists|]. by apply IH2.
  - intros [H| ->] Hk.
    + destruct (IH1 s1 s2 k H Hk) as [a ->]. by eexists.
    + simpl. by destruct (bt r1 s2 k); [eexists|].
  - by apply rep_complete.
  - apply IH1.
Qed.

Lemma match_at_Some (r : regex) (s : str) (n : nat) :
  match_at r s = Some n -> n <= length s /\ matches r (take n s).
Proof.
  unfold match_at. intros H.
  apply bt_sound in H as (s1 & s2 & -> & Hm & [= <-]).
  rewrite length_app. split; [lia|].
  replace (length s1 + length s2 - length s2) with (length s1) by lia.
  by rewrite take_app_length.
Qed.

Lemma match_at_None (r : regex) (g post : str) :
  match_at r (g ++ post) = None -> ~ matches r g.
Proof.
  unfold match_at. intros H Hm.
  destruct (bt_complete r g post
              (fun rest => Some (length (g ++ post) - length rest)) Hm)
    as [n Hn]; [by eexists|]. congruence.
Qed.

(** [search_from] returns the leftmost place where a match starts. *)
Lemma search_from_Some (r : regex) (s : str) (i j : nat) (g : str) :
  search_from r s i = Some (j, g) ->
  exists pre,
    j = i + length pre /\ occurs_at s pre g /\ matches r g /\
    forall pre' g', occurs_at s pre' g' -> matches r g' ->
                    length pre <= length pre'.
Proof.
  revert i. induction s as [|c s IH]; intros i; simpl.
  - destruct (match_at r []) as [n|] eqn:Hm; [|done].
    intros [= <- <-]. apply match_at_Some in Hm as [_ Hm].
    exists []. split_and!; [simpl; lia | | done | simpl; lia].
    exists []. by rewrite take_nil.
  - destruct (match_at r (c :: s)) as [n|] eqn:Hm.
    + intros [= <- <-]. apply match_at_Some in Hm as [_ Hm].
      exists []. split_and!; [simpl; lia | | done | simpl; lia].
      exists (drop n (c :: s)). simpl. by rewrite take_drop.
    + intros H. apply IH in H as (pre & -> & [post ->] & Hg & Hleft).
      exists (c :: pre). split_and!; [simpl; lia | by exists post | done |].
      intros pre' g' [post' Heq] Hg'.
      destruct pre' as [|c' pre'].
      * simpl in Heq. rewrite Heq in Hm. by apply match_at_None in Hm.
      * simpl in Heq. injection Heq as -> Heq. simpl.
        apply le_n_S, (Hleft pre' g'); [by exists post' | done].
Qed.

Lemma search_from_None (r : regex) (s : str) (i : nat) :
  search_from r s i = None ->
  forall pre g, occurs_at s pre g -> ~ matches r g.
Proof.
  revert i. induction s as [|c s IH]; intros i; simpl.
  - destruct (match_at r []) as [n|] eqn:Hm; [done|]. intros _ pre g [post Heq].
    symmetry in Heq. apply app_eq_nil in Heq as [-> Heq].
    apply app_eq_nil in Heq as [-> ->]. by apply (match_at_None r [] []).
  - destruct (match_at r (c :: s)) as [n|] eqn:Hm; [done|].
    intros H pre g [post Heq]. destruct pre as [|c' pre].
    + simpl in Heq. rewrite Heq in Hm. by apply match_at_None in Hm.
    + simpl in Heq. injection Heq as -> Heq. apply (IH _ H pre g).
      by exists post.
Qed.

End MatcherFacts.

Section PatternFacts.
Import Matcher.

Lemma power_class (cls : list (N * N)) (n : nat) (s : str) :
  power n (matches (Class cls)) s <->
  length s = n /\ Forall (fun c => in_class cls c = true) s.
Proof.
  revert s. induction n as [|n IH]; intros s; simpl.
  - split.
    + intros ->. split; [done | constructor].
    + intros [H _]. by destruct s.
  - split.
    + intros (s1 & s2 & -> & (c & -> & Hc) & Hp).
      apply IH in Hp as [<- Hall]. split; [done | by constructor].
    + intros [Hlen Hall]. destruct s as [|c s]; [done|].
      apply Forall_cons in Hall as [Hc Hall]. exists [c], s.
      split_and!; [done | by exists c |]. apply IH. split; [|done].
      simpl in Hlen. lia.
Qed.

(** The matcher on a run of identifier characters; [f] is the matcher of
    the character class, in whatever form it is met. *)
Lemma rep_id_run {A : Type} (f : str -> (str -> option A) -> option A)
    (n : nat) (ident post : str) (k : str -> option A) :
  (forall s k, f s k = bt (Class id_class) s k) ->
  Forall (fun c => is_id_char c = true) ident -> run_ends post ->
  rep f n (ident ++ post) k =
    if decide (n <= length ident) then k (drop n ident ++ post) else None.
Proof.
  intros Hf Hall Hpost. revert ident Hall.
  induction n as [|n IH]; intros ident Hall; cbn [rep].
  - by rewrite drop_0.
  - rewrite Hf. cbn [bt].
    destruct Hall as [|c ident Hc Hall]; cbn [app length drop].
    + destruct post as [|c post]; [done|]. cbn [run_ends] in Hpost.
      unfold is_id_char in Hpost. by rewrite Hpost.
    + unfold is_id_char in Hc. rewrite Hc. rewrite IH by done.
      destruct (decide (n <= length ident)), (decide (S n <= S (length ident)));
        (done || lia).
Qed.

(** The same for a run that is long enough, whatever follows it. *)
Lemma rep_id_prefix {A : Type} (f : str -> (str -> option A) -> option A)
    (n : nat) (ident post : str) (k : str -> option A) :
  (forall s k, f s k = bt (Class id_class) s k) ->
  Forall (fun c => is_id_char c = true) ident -> n <= length ident ->
  rep f n (ident ++ post) k = k (drop n ident ++ post).
Proof.
  intros Hf Hall. revert ident Hall.
  induction n as [|n IH]; intros ident Hall Hlen; cbn [rep].
  - by rewrite drop_0.
  - rewrite Hf. cbn [bt].
    destruct Hall as [|c ident Hc Hall]; cbn [app length drop] in *; [lia|].
    unfold is_id_char in Hc. rewrite Hc. apply IH; [done | lia].
Qed.

Local Arguments rep : simpl never.

(** What a match of the pattern looks like: one of the twelve link
    prefixes, then exactly eleven identifier characters. *)
Lemma matches_pattern_inv (g : str) :
  matches YOUTUBE_URL_PATTERN g ->
  exists h ident,
    h ∈ link_prefixes /\ length ident = 11 /\
    Forall (fun c => is_id_char c = true) ident /\ g = h ++ ident.
Proof.
  unfold YOUTUBE_URL_PATTERN. cbn [matches].
  intros (s1 & s2 & -> & Hsc & s3 & s4 & -> & Hw & s5 & ident & -> & Hh & Hid).
  apply power_class in Hid as [Hlen Hall].
  exists (s1 ++ s3 ++ s5), ident. split_and!; [| done | done | by rewrite <- !app_assoc].
  assert (Hs1 : s1 ∈ schemes).
  { destruct Hsc as [(a & b & -> & -> & c & d & -> & [-> | ->] & ->) | ->];
      by_computation. }
  assert (Hs3 : s3 ∈ wwws) by (destruct Hw as [-> | ->]; by_computation).
  assert (Hs5 : s5 ∈ hosts) by (destruct Hh as [-> | ->]; by_computation).
  unfold link_prefixes.
  apply list_elem_of_bind. exists s1. split; [|done].
  apply list_elem_of_bind. exists s3. split; [|done].
  apply list_elem_of_bind. exists s5. split; [|done].
  apply list_elem_of_singleton. done.
Qed.

(** The test the code makes, [startswith('http')], tells whether the match
    carries a scheme. *)
Lemma link_startswith_http (h ident : str) :
  h ∈ link_prefixes ->
  startswith (h ++ ident) (py "http") = has_scheme (h ++ ident).
Proof.
  intros Hh. vm_compute in Hh.
  repeat (apply elem_of_cons in Hh as [->|Hh]);
    [..| by apply elem_of_nil in Hh]; vm_compute; reflexivity.
Qed.

Lemma match_at_candidate (h ident post : str) :
  h ∈ link_prefixes ->
  Forall (fun c => is_id_char c = true) ident -> run_ends post ->
  match_at YOUTUBE_URL_PATTERN (h ++ ident ++ post) =
    if decide (11 <= length ident) then Some (length h + 11) else None.
Proof.
  intros Hh Hall Hpost. unfold match_at, YOUTUBE_URL_PATTERN.
  vm_compute in Hh.
  repeat (apply elem_of_cons in Hh as [->|Hh]);
    [..| by apply elem_of_nil in Hh]; simpl;
    rewrite (rep_id_run _ 11 ident post) by done.
  all: destruct (decide (11 <= length ident)) as [Hl|Hl]; [|done].
  all: rewrite !length_app, length_drop; f_equal; lia.
Qed.

Lemma match_at_candidate_long (h ident post : str) :
  h ∈ link_prefixes ->
  Forall (fun c => is_id_char c = true) ident -> run_ends post ->
  11 <= length ident ->
  match_at YOUTUBE_URL_PATTERN (h ++ ident ++ post) = Some (length h + 11).
Proof.
  intros Hh Hall Hpost Hlen. rewrite match_at_candidate by done.
  by destruct (decide (11 <= length ident)); [|lia].
Qed.

(** Eleven identifier characters after a link prefix are a match, whatever
    follows them. *)
Lemma match_at_link (h ident post : str) :
  h ∈ link_prefixes ->
  Forall (fun c => is_id_char c = true) ident -> length ident = 11 ->
  match_at YOUTUBE_URL_PATTERN (h ++ ident ++ post) = Some (length (h ++ ident)).
Proof.
  intros Hh Hall Hlen. unfold match_at, YOUTUBE_URL_PATTERN.
  vm_compute in Hh.
  repeat (apply elem_of_cons in Hh as [->|Hh]);
    [..| by apply elem_of_nil in Hh]; simpl;
    rewrite (rep_id_prefix _ 11 ident post) by (done || lia).
  all: rewrite !length_app, length_drop; f_equal; lia.
Qed.

(** At most one match starts at a given place. *)
Lemma match_unique (s g g' : str) :
  matches YOUTUBE_URL_PATTERN g -> matches YOUTUBE_URL_PATTERN g' ->
  g `prefix_of` s -> g' `prefix_of` s -> g = g'.
Proof.
  intros Hg Hg' [post Hs] [post' Hs'].
  assert (Hlen : forall x t, matches YOUTUBE_URL_PATTERN x -> s = x ++ t ->
                             match_at YOUTUBE_URL_PATTERN s = Some (length x)).
  { intros x t Hx ->.
    apply matches_pattern_inv in Hx as (h & ident & Hh & Hl & Hall & ->).
    rewrite <- app_assoc. by apply match_at_link. }
  pose proof (Hlen g post Hg Hs) as H1.
  pose proof (Hlen g' post' Hg' Hs') as H2.
  rewrite H1 in H2. injection H2 as Heq.
  rewrite Hs in Hs'. by apply app_inj_1 in Hs' as [? _].
Qed.

End PatternFacts.

(** ** The link matcher: results *)

Section MatcherResults.
Import Matcher.

Lemma is_youtube_url_occurs (text pre g : str) :
  occurs_at text pre g -> matches YOUTUBE_URL_PATTERN g ->
  is_youtube_url text = true.
Proof.
  intros Hocc Hg. unfold is_youtube_url, search.
  destruct (search_from YOUTUBE_URL_PATTERN text 0) eqn:Hs; [done|].
  exfalso. by eapply search_from_None.
Qed.

(** C5, as stated, fails for identifiers longer than 11 characters: the
    pattern is not anchored after the identifier, so a link followed by a
    twelfth identifier character still matches. *)
Lemma long_identifier_matches :
  ~ (forall h ident post : str,
        h ∈ link_prefixes ->
        Forall (fun c => is_id_char c = true) ident -> run_ends post ->
        length ident <> 11 ->
        match_at YOUTUBE_URL_PATTERN (h ++ ident ++ post) = None) /\
  is_youtube_url (py "https://youtu.be/dQw4w9WgXcQQ") = true.
Proof.
  split; [|by vm_compute].
  intros H. specialize (H (py "https://youtu.be/") (py "dQw4w9WgXcQQ") []).
  assert (Hm : match_at YOUTUBE_URL_PATTERN
                 (py "https://youtu.be/" ++ py "dQw4w9WgXcQQ" ++ []) = Some 28)
    by (by vm_compute).
  rewrite H in Hm; [done | by_computation | by_computation | done | by vm_compute].
Qed.

(** C5 (amended): at a candidate link (a link prefix [h], then a run
    [ident] of characters of [[A-Za-z0-9_-]] that ends where [post]
    begins) the pattern does not match when the run is shorter than 11
    characters; when the run has 11 characters or more it matches, the
    match is the prefix followed by exactly the first 11 characters of the
    run, and [is_youtube_url] is true of every text that holds the
    candidate. *)
Theorem candidate_match (h ident post : str) :
  h ∈ link_prefixes ->
  Forall (fun c => is_id_char c = true) ident -> run_ends post ->
  (length ident < 11 ->
   match_at YOUTUBE_URL_PATTERN (h ++ ident ++ post) = None) /\
  (11 <= length ident ->
   match_at YOUTUBE_URL_PATTERN (h ++ ident ++ post) = Some (length h + 11) /\
   take (length h + 11) (h ++ ident ++ post) = h ++ take 11 ident /\
   forall pre, is_youtube_url (pre ++ h ++ ident ++ post) = true).
Proof.
  intros Hh Hall Hpost. rewrite match_at_candidate by done.
  split; intros Hlen.
  - by destruct (decide (11 <= length ident)); [lia|].
  - destruct (decide (11 <= length ident)); [|lia].
    assert (Htake : take (length h + 11) (h ++ ident ++ post) = h ++ take 11 ident).
    { rewrite take_app_ge by lia. f_equal.
      replace (length h + 11 - length h) with 11 by lia.
      by rewrite take_app_le by lia. }
    split_and!; [done | done |]. intros pre.
    apply (is_youtube_url_occurs _ pre (h ++ take 11 ident)).
    + exists (drop 11 ident ++ post).
      rewrite <- (take_drop 11 ident) at 1. by rewrite <- !app_assoc.
    + rewrite <- Htake. eapply match_at_Some. by apply match_at_candidate_long.
Qed.

Lemma candidate_match_witness :
  (length (py "dQw4w9WgXcQQ") < 11 ->
   match_at YOUTUBE_URL_PATTERN (py "youtu.be/" ++ py "dQw4w9WgXcQQ" ++ py " ok")
   = None) /\
  (11 <= length (py "dQw4w9WgXcQQ") ->
   match_at YOUTUBE_URL_PATTERN (py "youtu.be/" ++ py "dQw4w9WgXcQQ" ++ py " ok")
   = Some (length (py "youtu.be/") + 11) /\
   take (length (py "youtu.be/") + 11)
        (py "youtu.be/" ++ py "dQw4w9WgXcQQ" ++ py " ok")
   = py "youtu.be/" ++ take 11 (py "dQw4w9WgXcQQ") /\
   forall pre,
     is_youtube_url (pre ++ py "youtu.be/" ++ py "dQw4w9WgXcQQ" ++ py " ok")
     = true).
Proof.
  apply candidate_match.
  - apply (bool_decide_unpack _). vm_compute. exact I.
  - apply (bool_decide_unpack _). vm_compute. exact I.
  - vm_compute. reflexivity.
Defined.

(** What a successful extraction returns. *)
Lemma extract_youtube_url_found (text url : str) :
  extract_youtube_url text = Some url ->
  exists pre g,
    occurs_at text pre g /\ matches YOUTUBE_URL_PATTERN g /\
    (forall pre' g',
       occurs_at text pre' g' -> matches YOUTUBE_URL_PATTERN g' ->
       length pre <= length pre' /\ (length pre' = length pre -> g' = g)) /\
    url = (if has_scheme g then g else py "https://" ++ g) /\
    has_scheme url = true /\ url <> [].
Proof.
  unfold extract_youtube_url, search.
  destruct (search_from YOUTUBE_URL_PATTERN text 0) as [[j g]|] eqn:Hs; [|done].
  intros [= <-].
  apply search_from_Some in Hs as (pre & _ & Hocc & Hg & Hleft).
  exists pre, g. split_and!; [done | done | | | |].
  - intros pre' g' Hocc' Hg'. split; [by eapply Hleft|]. intros Hsame.
    destruct Hocc as [post Ht], Hocc' as [post' Ht']. rewrite Ht in Ht'.
    apply app_inj_1 in Ht' as [_ Ht']; [|done].
    apply (match_unique (g ++ post)); [done | done | | by exists post].
    rewrite Ht'. by exists post'.
  - apply matches_pattern_inv in Hg as (h & ident & Hh & _ & _ & ->).
    rewrite link_startswith_http by done. by destruct (has_scheme _).
  - apply matches_pattern_inv in Hg as (h & ident & Hh & _ & _ & ->).
    rewrite link_startswith_http by done.
    by destruct (has_scheme (h ++ ident)) eqn:Hsc.
  - apply matches_pattern_inv in Hg as (h & ident & Hh & Hlen & _ & ->).
    destruct (negb _); [done|]. intros Heq.
    apply (f_equal length) in Heq. rewrite length_app in Heq. simpl in Heq. lia.
Qed.

Lemma extract_youtube_url_missing (text : str) :
  extract_youtube_url text = None ->
  forall pre g, occurs_at text pre g -> ~ matches YOUTUBE_URL_PATTERN g.
Proof.
  unfold extract_youtube_url, search.
  destruct (search_from YOUTUBE_URL_PATTERN text 0) as [[j g]|] eqn:Hs; [done|].
  intros _. by eapply search_from_None.
Qed.

(** C6: [extract_youtube_url] returns [None] exactly when no substring of
    the text matches the pattern; otherwise it returns the match that
    starts leftmost (the only match that starts there), with ["https://"]
    put in front when the match carries no scheme, so that the result
    always starts with a scheme and is never the empty string.  The
    examples of the specification hold. *)
Theorem extract_youtube_url_spec :
  (forall text : str,
     match extract_youtube_url text with
     | Some url =>
         exists pre g,
           occurs_at text pre g /\ matches YOUTUBE_URL_PATTERN g /\
           (forall pre' g',
              occurs_at text pre' g' -> matches YOUTUBE_URL_PATTERN g' ->
              length pre <= length pre' /\ (length pre' = length pre -> g' = g)) /\
           url = (if has_scheme g then g else py "https://" ++ g) /\
           has_scheme url = true /\ url <> []
     | None =>
         forall pre g, occurs_at text pre g -> ~ matches YOUTUBE_URL_PATTERN g
     end) /\
  extract_youtube_url
    (py "check this out: https://www.youtube.com/watch?v=dQw4w9WgXcQ")
  = Some (py "https://www.youtube.com/watch?v=dQw4w9WgXcQ") /\
  extract_youtube_url (py "https://youtu.be/dQw4w9WgXcQ")
  = Some (py "https://youtu.be/dQw4w9WgXcQ") /\
  extract_youtube_url (py "no link here") = None.
Proof.
  split_and!; [| by vm_compute..].
  intros text. destruct (extract_youtube_url text) as [url|] eqn:He.
  - by apply extract_youtube_url_found.
  - by apply extract_youtube_url_missing.
Qed.

(** C10: [is_youtube_url] is true exactly when [extract_youtube_url] does
    not return [None]; after a successful check the extraction returns a
    URL, and that URL is a non-empty string. *)
Theorem is_youtube_url_iff_extract (text : str) :
  (is_youtube_url text = true <-> extract_youtube_url text <> None) /\
  (is_youtube_url text = true ->
   exists url, extract_youtube_url text = Some url /\ truthy url = true).
Proof.
  assert (Hiff : is_youtube_url text = true <-> extract_youtube_url text <> None).
  { unfold is_youtube_url, extract_youtube_url.
    by destruct (search YOUTUBE_URL_PATTERN text) as [[j g]|]. }
  split; [done|]. intros Hyes. apply Hiff in Hyes.
  destruct (extract_youtube_url text) as [url|] eqn:He; [|done].
  exists url. split; [done|].
  apply extract_youtube_url_found in He as (_ & _ & _ & _ & _ & _ & _ & Hne).
  by destruct url.
Qed.

End MatcherResults.

(** ** Access control: results *)

Section AccessResults.
Import Access.

Lemma comprehension_fails (int : str -> option Z) (entries : list str) (e : str) :
  e ∈ entries -> strip e <> [] -> int (strip e) = None ->
  comprehension int entries = None.
Proof.
  intros Hin Hne Hbad. induction entries as [|x entries IH]; simpl.
  - by apply elem_of_nil in Hin.
  - apply elem_of_cons in Hin as [<- | Hin].
    + rewrite Hbad. by destruct (strip e).
    + rewrite (IH Hin). destruct (truthy (strip x)); [|done].
      by destruct (int (strip x)).
Qed.

Lemma is_chat_allowed_empty (chat_id : Z) : is_chat_allowed ∅ chat_id = true.
Proof. unfold is_chat_allowed. by rewrite bool_decide_eq_true_2. Qed.

(** C7: with an empty allow-set every identifier is allowed; with a
    non-empty one an identifier is allowed exactly when it is a member.
    With the allow-set {42}, 42 is allowed and 7 is not. *)
Theorem is_chat_allowed_spec (A : gset Z) (chat_id : Z) :
  (A = ∅ -> is_chat_allowed A chat_id = true) /\
  (A <> ∅ -> (is_chat_allowed A chat_id = true <-> chat_id ∈ A)) /\
  is_chat_allowed {[42%Z]} 42 = true /\
  is_chat_allowed {[42%Z]} 7 = false.
Proof.
  split_and!.
  - intros ->. apply is_chat_allowed_empty.
  - intros Hne. unfold is_chat_allowed.
    rewrite bool_decide_eq_false_2 by done. apply bool_decide_eq_true.
  - by vm_compute.
  - by vm_compute.
Qed.

(** C8: when an entry of the comma-separated allow-list is not an integer,
    the whole list is discarded: the allow-set is empty, one warning is
    logged, loading still returns, and [is_chat_allowed] then allows every
    identifier. *)
Theorem load_discards_malformed_list
    (int : str -> option Z) (env : option str) (entry : str) :
  entry ∈ split_on 44 (TELEGRAM_CHAT_IDS_STR env) ->
  strip entry <> [] -> int (strip entry) = None ->
  ALLOWED_CHAT_IDS int env = ∅ /\
  warnings (load int env) =
    [py "Invalid TELEGRAM_CHAT_IDS format: " ++ TELEGRAM_CHAT_IDS_STR env
     ++ py ". Expected comma-separated integers."] /\
  forall chat_id, is_chat_allowed (ALLOWED_CHAT_IDS int env) chat_id = true.
Proof.
  intros Hin Hne Hbad.
  assert (Hload : load int env =
    Loaded ∅ [py "Invalid TELEGRAM_CHAT_IDS format: " ++ TELEGRAM_CHAT_IDS_STR env
              ++ py ". Expected comma-separated integers."]).
  { unfold load.
    rewrite (comprehension_fails int _ entry Hin Hne Hbad).
    destruct (TELEGRAM_CHAT_IDS_STR env) as [|c s] eqn:Hs; [|done].
    simpl in Hin. apply list_elem_of_singleton in Hin as ->. done. }
  unfold ALLOWED_CHAT_IDS. rewrite Hload. simpl.
  split_and!; [done | done |]. intros chat_id. apply is_chat_allowed_empty.
Qed.

Lemma load_discards_malformed_list_witness :
  ALLOWED_CHAT_IDS int_ascii (Some (py "42, seven,7")) = ∅ /\
  warnings (load int_ascii (Some (py "42, seven,7"))) =
    [py "Invalid TELEGRAM_CHAT_IDS format: "
     ++ TELEGRAM_CHAT_IDS_STR (Some (py "42, seven,7"))
     ++ py ". Expected comma-separated integers."] /\
  forall chat_id,
    is_chat_allowed (ALLOWED_CHAT_IDS int_ascii (Some (py "42, seven,7"))) chat_id
    = true.
Proof.
  apply (load_discards_malformed_list int_ascii (Some (py "42, seven,7"))
           (py " seven")).
  - apply (bool_decide_unpack _). vm_compute. exact I.
  - vm_compute. discriminate.
  - vm_compute. reflexivity.
Defined.

(** A well-formed list is kept, and then only its members pass. *)
Example load_well_formed :
  ALLOWED_CHAT_IDS int_ascii (Some (py "42, 7,")) = {[42%Z; 7%Z]} /\
  ALLOWED_CHAT_IDS int_ascii None = {[287129494%Z]} /\
  ALLOWED_CHAT_IDS int_ascii (Some []) = ∅.
Proof.
  unfold ALLOWED_CHAT_IDS, load. split_and!.
  - vm_compute comprehension. simpl. set_solver.
  - vm_compute comprehension. simpl. set_solver.
  - done.
Qed.

End AccessResults.

(** * Further properties *)

(** ** The chunker *)

Section ChunkerMore.
Import Chunker ChunkerSpec.

Local Open Scope Z_scope.

Lemma lstrip_idem (s : str) : lstrip (lstrip s) = lstrip s.
Proof.
  induction s as [|c s IH]; simpl; [done|].
  destruct (isspace c) eqn:Hc; [done|]. simpl. by rewrite Hc.
Qed.

Lemma rstrip_idem (s : str) : rstrip (rstrip s) = rstrip s.
Proof.
  induction s as [|c s IH]; simpl; [done|].
  destruct (rstrip s) as [|x t] eqn:Hr.
  - destruct (isspace c) eqn:Hc; simpl; [done|]. by rewrite Hc.
  - change (rstrip (c :: x :: t)) with
      (match rstrip (x :: t) with [] => if isspace c then [] else [c] | t' => c :: t' end).
    by rewrite IH.
Qed.

Lemma lstrip_fixed_cons (x : N) (s : str) :
  lstrip (x :: s) = x :: s <-> isspace x = false.
Proof.
  simpl. destruct (isspace x) eqn:Hx; split; try done.
  intros H. pose proof (length_lstrip s) as Hl. rewrite H in Hl. simpl in Hl. lia.
Qed.

Lemma lstrip_fixed_prefix (c rest : str) :
  lstrip (c ++ rest) = c ++ rest -> c <> [] -> lstrip c = c.
Proof.
  destruct c as [|x c]; [done|]. intros H _.
  apply lstrip_fixed_cons. by apply lstrip_fixed_cons in H.
Qed.

Lemma lstrip_no_space (s : str) :
  Forall (fun c => isspace c = false) s -> lstrip s = s.
Proof. destruct 1 as [|c s Hc _]; [done|]. by apply lstrip_fixed_cons. Qed.

Lemma rstrip_no_space (s : str) :
  Forall (fun c => isspace c = false) s -> rstrip s = s.
Proof.
  induction 1 as [|c s Hc _ IH]; simpl; [done|].
  rewrite IH. destruct s; [by rewrite Hc | done].
Qed.

Section Positive.

Variable max_length : Z.
Hypothesis max_length_pos : 0 < max_length.

Lemma trimmed_step (r : str) (cs : list str) :
  max_length < py_len r -> trimmed (r, cs) ->
  trimmed (loop_body max_length (r, cs)).
Proof using max_length_pos.
  intros Hlen (Hr & Hl & Hrem). cbn [fst snd] in *.
  destruct (loop_body_cut max_length r cs) as (p & Hcut & ->); [done..|].
  unfold trimmed. cbn [fst snd].
  destruct (rstrip (take p r)) as [|x t] eqn:Hchunk; simpl.
  - split_and!; [done | done |]. intros _. apply lstrip_idem.
  - rewrite <- Hchunk. split_and!.
    + apply Forall_app. split; [done|]. constructor; [|constructor].
      apply rstrip_idem.
    + intros i c Hi Hpos. apply lookup_app_Some in Hi as [Hi | [Hge Hi]].
      * by apply (Hl i).
      * apply list_lookup_singleton_Some in Hi as [Hi <-].
        assert (Hcs : cs <> []) by (destruct cs; simpl in *; [lia | done]).
        specialize (Hrem Hcs).
        destruct (rstrip_split (take p r)) as (w & Hw & _).
        apply (lstrip_fixed_prefix _ (w ++ drop p r)).
        -- rewrite app_assoc, <- Hw, take_drop. done.
        -- by rewrite Hchunk.
    + intros _. apply lstrip_idem.
Qed.

Lemma sliced_step (text r : str) (cs : list str) :
  max_length < py_len r -> sliced text (Z.to_nat max_length) (r, cs) ->
  sliced text (Z.to_nat max_length) (loop_body max_length (r, cs)).
Proof using max_length_pos.
  intros Hlen (Htext & Hcs & Hr). cbn [fst snd] in *.
  destruct (loop_body_cut max_length r cs) as (p & Hcut & ->); [done..|].
  assert (Hspace : forall c, isspace c = true -> c ∉ r).
  { intros c Hc Hin. eapply Forall_forall in Hr; [|done]. congruence. }
  assert (Hp : p = Z.to_nat max_length).
  { destruct Hcut as [p Hp Hnl _ | p Hp Hsp _ _ | _ _]; [| | done].
    - exfalso. apply (Hspace newline); [done|]. by eapply list_elem_of_lookup_2.
    - exfalso. apply (Hspace space); [done|]. by eapply list_elem_of_lookup_2. }
  subst p.
  assert (Htake : Forall (fun c => isspace c = false) (take (Z.to_nat max_length) r))
    by by apply Forall_take.
  assert (Hdrop : Forall (fun c => isspace c = false) (drop (Z.to_nat max_length) r))
    by by apply Forall_drop.
  rewrite rstrip_no_space, lstrip_no_space by done.
  unfold py_len in Hlen.
  destruct (take (Z.to_nat max_length) r) as [|x t] eqn:Ht.
  { apply (f_equal length) in Ht. rewrite length_take in Ht. simpl in Ht. lia. }
  unfold sliced. cbn [fst snd truthy]. rewrite <- Ht. split_and!.
  - rewrite concat_app. simpl. rewrite app_nil_r, <- app_assoc, take_drop. done.
  - apply Forall_app. split; [done|]. constructor; [|constructor].
    rewrite length_take. lia.
  - done.
Qed.

Lemma split_message_woven (fuel : nat) (text : str) (cs : list str) :
  split_message fuel text max_length = Some cs ->
  exists lead gaps,
    length gaps = length cs /\ all_space lead /\ Forall all_space gaps /\
    text = weave lead cs gaps.
Proof using max_length_pos.
  intros Hcs.
  apply split_message_cases in Hcs as [[Hle ->] | (Hgt & r & chunks & Hloop & ->)].
  - exists [], [[]]. simpl. rewrite app_nil_r.
    split_and!; [done | constructor | by repeat constructor | done].
  - apply (while_loop_invariant max_length (woven text)) in Hloop
      as [(lead & gaps & Hlen & Hlead & Hgaps & Htext) _];
      [| by apply woven_step |].
    + cbn [fst snd] in *. destruct r as [|x r]; simpl.
      * exists lead, gaps. rewrite app_nil_r in Htext. done.
      * exists lead, (gaps ++ [[]]). split_and!.
        -- rewrite !length_app. simpl. lia.
        -- done.
        -- apply Forall_app. split; [done|]. by repeat constructor.
        -- rewrite weave_snoc by done. by rewrite app_nil_r.
    + exists [], []. simpl. split_and!; [done | constructor | constructor | done].
Qed.

Lemma split_message_fits (fuel : nat) (text : str) (cs : list str) :
  split_message fuel text max_length = Some cs ->
  Forall (fun c => py_len c <= max_length) cs /\
  (text <> [] -> Forall (fun c => c <> []) cs).
Proof using max_length_pos.
  intros Hcs.
  apply split_message_cases in Hcs as [[Hle ->] | (Hgt & r & chunks & Hloop & ->)].
  - split; [by constructor|]. intros Hne. by constructor.
  - apply (while_loop_invariant max_length (chunks_fit max_length)) in Hloop
      as [Hfit Hlen]; [| by apply chunks_fit_step | by constructor].
    unfold chunks_fit in Hfit. cbn [fst snd] in *.
    assert (Hall : Forall (fun c => c <> [] /\ py_len c <= max_length)
                     (if truthy r then chunks ++ [r] else chunks)).
    { destruct r as [|x r]; simpl; [done|].
      apply Forall_app. split; [done|]. by constructor. }
    split; [|intros _]; eapply Forall_impl; try exact Hall; by intros c [? ?].
Qed.

End Positive.

Lemma filter_all_space (w : str) :
  all_space w -> List.filter (fun c => negb (isspace c)) w = [].
Proof. induction 1 as [|c w Hc _ IH]; simpl; [done|]. by rewrite Hc. Qed.

Lemma filter_weave (lead : str) (cs gaps : list str) :
  length gaps = length cs -> all_space lead -> Forall all_space gaps ->
  List.filter (fun c => negb (isspace c)) (weave lead cs gaps) =
  concat (map (List.filter (fun c => negb (isspace c))) cs).
Proof.
  revert lead gaps. induction cs as [|c cs IH]; intros lead [|w ws] Hlen Hl Hg;
    simplify_eq/=.
  - by apply filter_all_space.
  - apply Forall_cons in Hg as [Hw Hws].
    rewrite !List.filter_app, filter_all_space by done. simpl.
    by rewrite IH.
Qed.

(** X1: every chunk after the first starts, and every chunk before the
    last ends, with a character that is not whitespace. *)
Theorem split_message_boundaries_trimmed
    (text : str) (max_length : Z) (fuel : nat) :
  0 < max_length -> (length text <= fuel)%nat ->
  exists cs,
    split_message fuel text max_length = Some cs /\
    forall (i : nat) c, cs !! i = Some c ->
      ((0 < i)%nat -> lstrip c = c) /\
      ((S i < length cs)%nat -> rstrip c = c).
Proof.
  intros Hm Hfuel.
  destruct (split_message_total max_length Hm fuel text Hfuel) as [cs Hcs].
  exists cs. split; [done|].
  apply split_message_cases in Hcs as [[Hle ->] | (Hgt & r & chunks & Hloop & ->)].
  - intros [|i] c Hi; simpl in *; [split; intros; lia | done].
  - apply (while_loop_invariant max_length trimmed) in Hloop
      as [(Hr & Hl & Hrem) _]; [| by apply trimmed_step |].
    + cbn [fst snd] in *. intros i c Hi. destruct r as [|x r]; simpl in *.
      * split; [by apply Hl|]. intros _.
        eapply Forall_forall in Hr; [done|]. by eapply list_elem_of_lookup_2.
      * apply lookup_app_Some in Hi as [Hi | [Hge Hi]].
        -- split; [by apply Hl|]. intros _.
           eapply Forall_forall in Hr; [done|]. by eapply list_elem_of_lookup_2.
        -- apply list_lookup_singleton_Some in Hi as [Hi <-].
           rewrite length_app. simpl. split; [|lia]. intros Hpos.
           apply Hrem. destruct chunks; simpl in *; [lia | done].
    + split_and!; [constructor | by intros [|?] ? | done].
Qed.

Lemma split_message_boundaries_trimmed_witness :
  exists cs,
    split_message 13 (py "  one  two   ") 5 = Some cs /\
    forall (i : nat) c, cs !! i = Some c ->
      ((0 < i)%nat -> lstrip c = c) /\
      ((S i < length cs)%nat -> rstrip c = c).
Proof.
  apply split_message_boundaries_trimmed; [lia | vm_compute; lia].
Defined.

(** X2: chunking loses and reorders no character that is not whitespace:
    the text without its whitespace is the chunks without theirs, one after
    the other. *)
Theorem split_message_keeps_content
    (text : str) (max_length : Z) (fuel : nat) :
  0 < max_length -> (length text <= fuel)%nat ->
  exists cs,
    split_message fuel text max_length = Some cs /\
    List.filter (fun c => negb (isspace c)) text =
    concat (map (List.filter (fun c => negb (isspace c))) cs).
Proof.
  intros Hm Hfuel.
  destruct (split_message_total max_length Hm fuel text Hfuel) as [cs Hcs].
  exists cs. split; [done|].
  apply (split_message_woven max_length Hm) in Hcs
    as (lead & gaps & Hlen & Hlead & Hgaps & ->).
  by apply filter_weave.
Qed.

Lemma split_message_keeps_content_witness :
  exists cs,
    split_message 13 (py "  one  two   ") 5 = Some cs /\
    List.filter (fun c => negb (isspace c)) (py "  one  two   ") =
    concat (map (List.filter (fun c => negb (isspace c))) cs).
Proof.
  apply split_message_keeps_content; [lia | vm_compute; lia].
Defined.

(** X3: a text without any whitespace is cut into consecutive slices:
    the chunks put end to end are the text, and every chunk but the last
    has exactly [max_length] characters. *)
Theorem split_message_slices
    (text : str) (max_length : Z) (fuel : nat) :
  0 < max_length -> Forall (fun c => isspace c = false) text ->
  (length text <= fuel)%nat ->
  exists cs,
    split_message fuel text max_length = Some cs /\
    concat cs = text /\
    forall (i : nat) c, cs !! i = Some c -> (S i < length cs)%nat ->
                        py_len c = max_length.
Proof.
  intros Hm Hns Hfuel.
  destruct (split_message_total max_length Hm fuel text Hfuel) as [cs Hcs].
  exists cs. split; [done|].
  apply split_message_cases in Hcs as [[Hle ->] | (Hgt & r & chunks & Hloop & ->)].
  - simpl. rewrite app_nil_r. split; [done|]. intros [|i] c Hi Hlt; simpl in *; lia.
  - apply (while_loop_invariant max_length (sliced text (Z.to_nat max_length)))
      in Hloop as [(Htext & Hcs & Hr) _]; [| by apply sliced_step |].
    + cbn [fst snd] in *.
      assert (Hlen : forall (i : nat) c, chunks !! i = Some c -> py_len c = max_length).
      { intros i c Hi. eapply Forall_forall in Hcs;
          [| by eapply list_elem_of_lookup_2]. unfold py_len. lia. }
      destruct r as [|x r]; simpl.
      * rewrite app_nil_r in Htext. split; [done|]. intros i c Hi _. by eapply Hlen.
      * split; [by rewrite concat_app; simpl; rewrite app_nil_r|].
        intros i c Hi Hlt. rewrite length_app in Hlt. simpl in Hlt.
        rewrite lookup_app_l in Hi by lia. by eapply Hlen.
    + split_and!; [done | constructor | done].
Qed.

Lemma split_message_slices_witness :
  exists cs,
    split_message 11 (py "abcdefghijk") 4 = Some cs /\
    concat cs = py "abcdefghijk" /\
    forall (i : nat) c, cs !! i = Some c -> (S i < length cs)%nat ->
                        py_len c = 4.
Proof.
  apply split_message_slices;
    [lia | apply (bool_decide_unpack _); vm_compute; exact I | vm_compute; lia].
Defined.

Lemma while_loop_negative (fuel : nat) (max_length : Z) (st : str * list str) :
  max_length < 0 -> while_loop fuel max_length st = None.
Proof.
  intros Hneg. revert st. induction fuel as [|fuel IH]; intros st; simpl;
    destruct (Z.ltb_spec max_length (py_len (fst st))) as [_|Hge];
    try done; unfold py_len in Hge; lia.
Qed.

Lemma loop_body_zero (r : str) (cs : list str) :
  loop_body 0 (r, cs) = (lstrip r, cs).
Proof.
  assert (H0 : adjust (py_len r) 0 = 0).
  { unfold adjust. simpl. unfold py_len. lia. }
  unfold loop_body, rfind, slice_to, slice_from.
  rewrite !H0. simpl. rewrite !H0. by simpl.
Qed.

Lemma while_loop_zero (fuel : nat) (r : str) (cs : list str) :
  lstrip r <> [] -> while_loop fuel 0 (r, cs) = None.
Proof.
  revert r. induction fuel as [|fuel IH]; intros r Hr; cbn [while_loop fst];
    destruct (Z.ltb_spec 0 (py_len r)) as [_|Hge]; try done.
  - destruct r; [done | unfold py_len in Hge; simpl in Hge; lia].
  - rewrite loop_body_zero. apply IH. by rewrite lstrip_idem.
  - destruct r; [done | unfold py_len in Hge; simpl in Hge; lia].
Qed.

(** X4: the limit has to be positive.  With a negative [max_length]
    [split_message] never returns; with [max_length = 0] it never returns
    on a text that holds a character that is not whitespace, and returns
    no chunk at all for a non-empty text of whitespace. *)
Theorem split_message_nonpositive_limit (text : str) (max_length : Z) :
  max_length <= 0 ->
  (max_length < 0 \/ lstrip text <> [] ->
   forall fuel, split_message fuel text max_length = None) /\
  (max_length = 0 -> lstrip text = [] ->
   forall fuel, (0 < fuel)%nat ->
     split_message fuel text max_length = Some (if truthy text then [] else [text])).
Proof.
  intros Hm. split.
  - intros Hcase fuel. unfold split_message.
    destruct (Z.leb_spec (py_len text) max_length) as [Hle|_].
    + destruct Hcase as [Hneg|Hns]; [unfold py_len in Hle; lia|].
      destruct text; [done | unfold py_len in Hle; simpl in Hle; lia].
    + destruct Hcase as [Hneg|Hns].
      * by rewrite while_loop_negative.
      * assert (max_length = 0 \/ max_length < 0) as [-> | Hneg] by lia.
        -- by rewrite while_loop_zero.
        -- by rewrite while_loop_negative.
  - intros -> Hws fuel Hfuel. unfold split_message.
    destruct text as [|x text]; [done|].
    destruct fuel as [|fuel]; [lia|].
    cbn [while_loop fst]. unfold py_len at 1 2. simpl Z.leb. simpl Z.ltb.
    rewrite loop_body_zero, Hws. by destruct fuel.
Qed.

Lemma split_message_nonpositive_limit_witness :
  (0 < 0 \/ lstrip (py " a") <> [] ->
   forall fuel, split_message fuel (py " a") 0 = None) /\
  (0 = 0 -> lstrip (py " a") = [] ->
   forall fuel, (0 < fuel)%nat ->
     split_message fuel (py " a") 0 = Some (if truthy (py " a") then [] else [py " a"])).
Proof.
  apply split_message_nonpositive_limit. lia.
Defined.

End ChunkerMore.

(** ** The link matcher *)

Section MatcherMore.
Import Matcher.

Lemma matches_link (h ident : str) :
  h ∈ link_prefixes ->
  Forall (fun c => is_id_char c = true) ident -> length ident = 11 ->
  matches YOUTUBE_URL_PATTERN (h ++ ident).
Proof.
  intros Hh Hall Hlen.
  pose proof (match_at_link h ident [] Hh Hall Hlen) as Hm.
  apply match_at_Some in Hm as [_ Hm].
  rewrite app_nil_r in Hm. by rewrite take_ge in Hm.
Qed.

Lemma search_from_head (r : regex) (s : str) (i n : nat) :
  match_at r s = Some n -> search_from r s i = Some (i, take n s).
Proof. intros H. destruct s; simpl; by rewrite H. Qed.

Lemma scheme_added (h ident : str) :
  h ∈ link_prefixes -> has_scheme (h ++ ident) = false ->
  py "https://" ++ h ∈ link_prefixes.
Proof.
  intros Hh. vm_compute in Hh.
  repeat (apply elem_of_cons in Hh as [->|Hh]);
    [..| by apply elem_of_nil in Hh];
    intros Hsc; vm_compute in Hsc; try discriminate; by_computation.
Qed.

(** X5: a URL that [extract_youtube_url] returns is itself a link, and
    extracting from it returns it unchanged. *)
Theorem extract_youtube_url_idempotent (text url : str) :
  extract_youtube_url text = Some url ->
  matches YOUTUBE_URL_PATTERN url /\
  is_youtube_url url = true /\
  extract_youtube_url url = Some url.
Proof.
  intros He.
  apply extract_youtube_url_found in He as (pre & g & _ & Hg & _ & -> & Hsc & _).
  apply matches_pattern_inv in Hg as (h & ident & Hh & Hlen & Hall & ->).
  assert (Hform : exists h', h' ∈ link_prefixes /\
            (if has_scheme (h ++ ident) then h ++ ident
             else py "https://" ++ h ++ ident) = h' ++ ident).
  { destruct (has_scheme (h ++ ident)) eqn:Hs.
    - by exists h.
    - exists (py "https://" ++ h). split; [by eapply scheme_added|].
      by rewrite <- app_assoc. }
  destruct Hform as (h' & Hh' & Heq). rewrite Heq in *.
  pose proof (match_at_link h' ident [] Hh' Hall Hlen) as Hm.
  rewrite app_nil_r in Hm.
  assert (Hsearch : search YOUTUBE_URL_PATTERN (h' ++ ident)
                    = Some (0, h' ++ ident)).
  { unfold search. rewrite (search_from_head _ _ _ _ Hm). by rewrite take_ge. }
  split_and!.
  - by apply matches_link.
  - unfold is_youtube_url. by rewrite Hsearch.
  - unfold extract_youtube_url. rewrite Hsearch.
    rewrite link_startswith_http by done. by rewrite Hsc.
Qed.

Lemma extract_youtube_url_idempotent_witness :
  matches YOUTUBE_URL_PATTERN (py "https://youtu.be/dQw4w9WgXcQ") /\
  is_youtube_url (py "https://youtu.be/dQw4w9WgXcQ") = true /\
  extract_youtube_url (py "https://youtu.be/dQw4w9WgXcQ")
  = Some (py "https://youtu.be/dQw4w9WgXcQ").
Proof.
  apply (extract_youtube_url_idempotent (py "see youtu.be/dQw4w9WgXcQ now")).
  vm_compute. reflexivity.
Defined.

(** X6: [is_youtube_url] is true of a text exactly when the text holds,
    somewhere, one of the twelve link prefixes followed by eleven
    identifier characters. *)
Theorem is_youtube_url_iff_holds_link (text : str) :
  is_youtube_url text = true <->
  exists pre h ident post,
    h ∈ link_prefixes /\ length ident = 11 /\
    Forall (fun c => is_id_char c = true) ident /\
    text = pre ++ h ++ ident ++ post.
Proof.
  split.
  - unfold is_youtube_url, search.
    destruct (search_from YOUTUBE_URL_PATTERN text 0) as [[j g]|] eqn:Hs; [|done].
    intros _. apply search_from_Some in Hs as (pre & _ & [post ->] & Hg & _).
    apply matches_pattern_inv in Hg as (h & ident & Hh & Hlen & Hall & ->).
    exists pre, h, ident, post. by rewrite <- app_assoc.
  - intros (pre & h & ident & post & Hh & Hlen & Hall & ->).
    apply (is_youtube_url_occurs _ pre (h ++ ident)).
    + exists post. by rewrite <- app_assoc.
    + by apply matches_link.
Qed.

End MatcherMore.

(** ** Access control *)

Section AccessMore.
Import Access.

Variable int : str -> option Z.

Lemma comprehension_Some (entries : list str) (ids : gset Z) :
  comprehension int entries = Some ids ->
  forall n, n ∈ ids <->
    exists e, e ∈ entries /\ strip e <> [] /\ int (strip e) = Some n.
Proof.
  revert ids. induction entries as [|x entries IH]; intros ids; simpl.
  - intros [= <-] n. split; [set_solver|].
    intros (e & He & _). by apply elem_of_nil in He.
  - destruct (strip x) as [|c sx] eqn:Hx; simpl.
    + intros H n. rewrite (IH ids H n). split.
      * intros (e & He & Hne & Hn). exists e. split_and!; [by right | done..].
      * intros (e & He & Hne & Hn). apply elem_of_cons in He as [-> | He].
        -- by rewrite Hx in Hne.
        -- by exists e.
    + destruct (int (c :: sx)) as [m|] eqn:Hm; [|done].
      destruct (comprehension int entries) as [ids'|]; [|done].
      intros [= <-] n. rewrite elem_of_union, elem_of_singleton, (IH ids' eq_refl n).
      split.
      * intros [-> | (e & He & Hne & Hn)].
        -- exists x. rewrite Hx. split_and!; [by left | done | done].
        -- exists e. split_and!; [by right | done..].
      * intros (e & He & Hne & Hn). apply elem_of_cons in He as [-> | He].
        -- left. rewrite Hx in Hn. congruence.
        -- right. by exists e.
Qed.

Lemma comprehension_succeeds (entries : list str) :
  (forall e, e ∈ entries -> strip e <> [] -> is_Some (int (strip e))) ->
  is_Some (comprehension int entries).
Proof.
  induction entries as [|x entries IH]; intros Hall; simpl; [by eexists|].
  destruct IH as [ids Hids].
  { intros e He. apply Hall. by right. }
  rewrite Hids. destruct (strip x) as [|c sx] eqn:Hx; simpl; [by eexists|].
  destruct (Hall x) as [m Hm]; [by left | by rewrite Hx |].
  rewrite Hx in Hm. rewrite Hm. by eexists.
Qed.

(** X7: a list whose entries are all integers (blank entries aside) is
    kept without a warning, and the allow-set holds exactly the integers
    of the entries that are not blank. *)
Theorem load_keeps_well_formed_list (env : option str) :
  (forall e, e ∈ split_on 44 (TELEGRAM_CHAT_IDS_STR env) ->
             strip e <> [] -> is_Some (int (strip e))) ->
  warnings (load int env) = [] /\
  forall n, n ∈ ALLOWED_CHAT_IDS int env <->
    exists e, e ∈ split_on 44 (TELEGRAM_CHAT_IDS_STR env) /\
              strip e <> [] /\ int (strip e) = Some n.
Proof.
  intros Hall. unfold ALLOWED_CHAT_IDS, load.
  destruct (TELEGRAM_CHAT_IDS_STR env) as [|c s] eqn:Hs; simpl truthy; cbv iota.
  - simpl. split; [done|]. intros n. split; [set_solver|].
    intros (e & He & Hne & _). simpl in He.
    apply list_elem_of_singleton in He as ->. done.
  - destruct (comprehension_succeeds _ Hall) as [ids Hids]. rewrite Hids. simpl.
    split; [done|]. by apply comprehension_Some.
Qed.

(** X8: a list with nothing but blank entries (an empty value, commas,
    whitespace) gives the empty allow-set without any warning, so every
    chat is allowed. *)
Theorem load_blank_list_allows_all (env : option str) :
  (forall e, e ∈ split_on 44 (TELEGRAM_CHAT_IDS_STR env) -> strip e = []) ->
  ALLOWED_CHAT_IDS int env = ∅ /\
  warnings (load int env) = [] /\
  forall chat_id, is_chat_allowed (ALLOWED_CHAT_IDS int env) chat_id = true.
Proof.
  intros Hblank.
  assert (Hnone : comprehension int (split_on 44 (TELEGRAM_CHAT_IDS_STR env)) = Some ∅).
  { destruct (comprehension_succeeds (split_on 44 (TELEGRAM_CHAT_IDS_STR env)))
      as [ids Hids].
    { intros e He Hne. by rewrite (Hblank e He) in Hne. }
    rewrite Hids. f_equal. apply set_eq. intros n.
    rewrite (comprehension_Some _ _ Hids n). split; [|set_solver].
    intros (e & He & Hne & _). by rewrite (Hblank e He) in Hne. }
  assert (Hload : load int env = Loaded ∅ []).
  { unfold load. rewrite Hnone. by destruct (truthy _). }
  unfold ALLOWED_CHAT_IDS. rewrite Hload. simpl.
  split_and!; [done | done |]. apply is_chat_allowed_empty.
Qed.

End AccessMore.

Lemma load_keeps_well_formed_list_witness :
  Access.warnings (Access.load Access.int_ascii (Some (py "42, -7,,"))) = [] /\
  forall n, n ∈ Access.ALLOWED_CHAT_IDS Access.int_ascii (Some (py "42, -7,,")) <->
    exists e, e ∈ split_on 44 (Access.TELEGRAM_CHAT_IDS_STR (Some (py "42, -7,,"))) /\
              strip e <> [] /\ Access.int_ascii (strip e) = Some n.
Proof.
  apply load_keeps_well_formed_list.
  intros e He. vm_compute in He.
  repeat (apply elem_of_cons in He as [->|He]); [..| by apply elem_of_nil in He];
    intros Hne;
    first [ exfalso; apply Hne; reflexivity | eexists; vm_compute; reflexivity ].
Defined.

Lemma load_blank_list_allows_all_witness :
  Access.ALLOWED_CHAT_IDS Access.int_ascii (Some (py " , ,")) = ∅ /\
  Access.warnings (Access.load Access.int_ascii (Some (py " , ,"))) = [] /\
  forall chat_id,
    Access.is_chat_allowed
      (Access.ALLOWED_CHAT_IDS Access.int_ascii (Some (py " , ,"))) chat_id = true.
Proof.
  apply load_blank_list_allows_all.
  intros e He. vm_compute in He.
  repeat (apply elem_of_cons in He as [->|He]); [..| by apply elem_of_nil in He];
    reflexivity.
Defined.

(** ** The handlers *)

Section BotFacts.
Import Chunker ChunkerSpec Matcher Bot.

Local Open Scope Z_scope.

Variable cfg : config.
Variable w : world.

(** The summary message always has chunks, each fit to be sent, and the
    first one starts with the camera. *)
Lemma full_message_chunks (summary : str) :
  exists first others,
    split_message (length (summary_header ++ summary))
                  (summary_header ++ summary) 4000 = Some (first :: others) /\
    Forall (fun t => t <> [] /\ py_len t <= 4000) (first :: others) /\
    head first = Some 128249%N.
Proof.
  destruct (split_message_total 4000 eq_refl (length (summary_header ++ summary))
              (summary_header ++ summary)) as [cs Hcs]; [done|].
  pose proof (split_message_fits 4000 eq_refl _ _ _ Hcs) as [Hfit Hne].
  pose proof (split_message_woven 4000 eq_refl _ _ _ Hcs)
    as (lead & gaps & Hlen & Hlead & _ & Hweave).
  destruct cs as [|first others].
  - exfalso. simpl in Hweave. rewrite <- Hweave in Hlead.
    by apply Forall_cons in Hlead as [Hsp _].
  - exists first, others. split; [done|].
    specialize (Hne ltac:(done)).
    split.
    + apply Forall_forall. intros t Ht. split.
      * by eapply Forall_forall in Hne.
      * by eapply Forall_forall in Hfit.
    + apply Forall_cons in Hne as [Hfirst _].
      destruct gaps as [|g gaps]; [done|]. simpl in Hweave.
      destruct lead as [|c lead].
      * destruct first as [|c first]; [done|]. simpl in Hweave. by injection Hweave as <-.
      * simpl in Hweave. injection Hweave as <- _.
        by apply Forall_cons in Hlead as [Hsp _].
Qed.

Lemma telegram_call_works (c : call) (history : list call) :
  telegram_works w -> telegram_call w c history = ([c], Returned tt).
Proof. intros Hw. unfold telegram_call, answer. by rewrite Hw. Qed.

Lemma for_each_works (l : list str) (history : list call) :
  telegram_works w ->
  for_each l (fun chunk => telegram_call w (reply_text chunk (Some Markdown))) history
  = (map (fun chunk => reply_text chunk (Some Markdown)) l, Returned tt).
Proof.
  intros Hw. revert history. induction l as [|x l IH]; intros history; simpl; [done|].
  unfold bind. rewrite telegram_call_works by done. by rewrite IH.
Qed.

(** Sending the later chunks in any world: the chunks are sent in order
    until one fails. *)
Lemma for_each_replies (l : list str) (history calls : list call)
    (out : outcome unit) :
  for_each l (fun chunk => telegram_call w (reply_text chunk (Some Markdown))) history
  = (calls, out) ->
  exists n : nat,
    calls = map (fun chunk => reply_text chunk (Some Markdown)) (take n l) /\
    ((out = Returned tt /\ n = length l) \/
     (out = Raised /\ failed_last w history calls)).
Proof.
  revert history calls out. induction l as [|x l IH]; intros history calls out; simpl.
  - intros [= <- <-]. exists 0%nat. split; [done|]. by left.
  - unfold bind, telegram_call at 1, answer.
    destruct (telegram w history (reply_text x (Some Markdown))) eqn:Hx.
    + destruct (for_each l _ (history ++ [reply_text x (Some Markdown)]))
        as [calls' out'] eqn:Hrest.
      intros [= <- <-]. apply IH in Hrest as (n & -> & Hcase).
      exists (S n). split; [done|].
      destruct Hcase as [[-> ->] | (-> & pre & c & Hpre & Hc)]; [by left|].
      right. split; [done|]. exists (reply_text x (Some Markdown) :: pre), c.
      split; [simpl; by rewrite <- Hpre|]. by rewrite <- app_assoc in Hc.
    + intros [= <- <-]. exists 1%nat. split; [done|].
      right. split; [done|]. exists [], (reply_text x (Some Markdown)).
      by rewrite app_nil_r.
Qed.

Lemma failed_last_cons (history calls : list call) (c : call) :
  failed_last w (history ++ [c]) calls -> failed_last w history (c :: calls).
Proof.
  intros (pre & c' & -> & Hc). exists (c :: pre), c'. split; [done|].
  by rewrite <- app_assoc in Hc.
Qed.

Lemma failed_last_app (history calls calls' : list call) :
  failed_last w (history ++ calls) calls' -> failed_last w history (calls ++ calls').
Proof.
  intros (pre & c' & -> & Hc). exists (calls ++ pre), c'.
  split; [by rewrite app_assoc|]. by rewrite <- app_assoc in Hc.
Qed.

Lemma answer_cases (history : list call) (c : call) :
  answer w history c = Returned tt \/
  (answer w history c = Raised /\ failed_last w history [c]).
Proof.
  unfold answer. destruct (telegram w history c) eqn:Hc; [by left|].
  right. split; [done|]. exists [], c. by rewrite app_nil_r.
Qed.

(** What the body of the [try] does, in any world: after the Gemini call
    either the apology is put in place of the ['Processing...'] message, or
    the chunks of the summary are sent in order until a call fails. *)
Lemma summarize_and_send_cases (video_url : str) (history calls : list call)
    (out : outcome unit) :
  summarize_and_send cfg w video_url history = (calls, out) ->
  let gen := generate_content video_url (SUMMARY_PROMPT cfg) in
  (out = Returned tt \/ (out = Raised /\ failed_last w history calls)) /\
  ((exists logs,
      calls = gen :: logs ++ [edit_text SORRY None] /\
      ((gemini w history video_url (SUMMARY_PROMPT cfg) = None /\
        logs = [logger_error (py "Error summarizing video: ")]) \/
       ((gemini w history video_url (SUMMARY_PROMPT cfg) = Some None \/
         gemini w history video_url (SUMMARY_PROMPT cfg) = Some (Some [])) /\
        logs = []))) \/
   (exists summary first others (n : nat),
      gemini w history video_url (SUMMARY_PROMPT cfg) = Some (Some summary) /\
      summary <> [] /\
      summary_chunks summary = Some (first :: others) /\
      calls = gen :: edit_text first (Some Markdown)
                  :: map (fun chunk => reply_text chunk (Some Markdown)) (take n others) /\
      (out = Returned tt -> n = length others))).
Proof.
  unfold summarize_and_send, bind, summarize_youtube_video.
  set (gen := generate_content video_url (SUMMARY_PROMPT cfg)).
  destruct (gemini w history video_url (SUMMARY_PROMPT cfg))
    as [[[|x summary]|]|] eqn:Hg; cbv beta iota zeta.
  - intros [= <- <-]. split.
    + destruct (answer_cases (history ++ [gen]) (edit_text SORRY None))
        as [-> | [-> Hf]]; [by left|]. right. split; [done|].
      by apply failed_last_cons.
    + left. exists []. split; [done|]. right. split; [by right | done].
  - destruct (full_message_chunks (x :: summary)) as (first & others & Hcs & _ & _).
    rewrite Hcs. unfold bind, telegram_call at 1.
    destruct (answer_cases (history ++ [gen]) (edit_text first (Some Markdown)))
      as [-> | [-> Hf]].
    + destruct (for_each others _ _) as [calls' out'] eqn:Hrest.
      intros [= <- <-]. apply for_each_replies in Hrest as (n & -> & Hcase). split.
      * destruct Hcase as [[-> _] | [-> Hf]]; [by left|]. right. split; [done|].
        apply failed_last_cons. simpl. by apply failed_last_cons.
      * right. exists (x :: summary), first, others, n.
        split_and!; [done | done | done | done |].
        intros ->. by destruct Hcase as [[_ ->] | [? _]].
    + intros [= <- <-]. split.
      * right. split; [done|]. by apply failed_last_cons.
      * right. exists (x :: summary), first, others, 0%nat.
        split_and!; [done | done | done | done | done].
  - intros [= <- <-]. split.
    + destruct (answer_cases (history ++ [gen]) (edit_text SORRY None))
        as [-> | [-> Hf]]; [by left|]. right. split; [done|].
      by apply failed_last_cons.
    + left. exists []. split; [done|]. right. split; [by left | done].
  - intros [= <- <-]. split.
    + destruct (answer_cases
                  (history ++ [gen; logger_error (py "Error summarizing video: ")])
                  (edit_text SORRY None)) as [-> | [-> Hf]]; [by left|].
      right. split; [done|].
      by apply (failed_last_app _ [gen; logger_error (py "Error summarizing video: ")]).
    + left. exists [logger_error (py "Error summarizing video: ")].
      split; [done|]. by left.
Qed.

End BotFacts.

Section HandleMessage.
Import Chunker ChunkerSpec Matcher Bot.

Local Open Scope Z_scope.

Variable cfg : config.
Variable w : world.

Lemma extract_youtube_url_nonempty (t url : str) :
  extract_youtube_url t = Some url ->
  t <> [] /\ url <> [] /\ is_youtube_url t = true /\ has_scheme url = true.
Proof.
  intros He. split_and!.
  - by intros ->.
  - by apply extract_youtube_url_found in He as (_ & _ & _ & _ & _ & _ & _ & Hne).
  - unfold is_youtube_url, extract_youtube_url in *.
    by destruct (search YOUTUBE_URL_PATTERN t) as [[j g]|].
  - by apply extract_youtube_url_found in He as (_ & _ & _ & _ & _ & _ & Hsc & _).
Qed.

(** Every run of [handle_message] is one row of the table. *)
Lemma handle_message_handled (upd : update) (history calls : list call)
    (out : outcome unit) :
  handle_message cfg w upd history = (calls, out) ->
  handled cfg w upd history calls out.
Proof.
  unfold handle_message.
  destruct (Access.is_chat_allowed _ _) eqn:Hallowed; cbn [negb].
  2:{ intros [= <- <-]. by apply handled_denied. }
  destruct (message_text upd) as [[|x t]|] eqn:Htext.
  - intros [= <- <-]. apply handled_no_text; [done | by right].
  - destruct (is_youtube_url (x :: t)) eqn:Hlink; cbn [negb].
    2:{ intros [= <- <-]. by apply (handled_no_link _ _ _ _ (x :: t)). }
    destruct (extract_youtube_url (x :: t)) as [url|] eqn:He.
    2:{ exfalso. unfold is_youtube_url, extract_youtube_url in *.
        by destruct (search YOUTUBE_URL_PATTERN (x :: t)) as [[j g]|]. }
    pose proof (extract_youtube_url_nonempty _ _ He) as (_ & Hurl & _ & _).
    destruct url as [|u url]; [done|].
    unfold bind, telegram_call at 1, answer.
    destruct (telegram w history (reply_text PROCESSING None)) eqn:Hp.
    + unfold try_except.
      destruct (summarize_and_send cfg w (u :: url) _) as [body bout] eqn:Hbody.
      pose proof (summarize_and_send_cases cfg w _ _ _ _ Hbody)
        as [[-> | [-> _]] _].
      * intros [= <- <-]. by eapply handled_done.
      * unfold bind, telegram_call.
        intros [= <- <-]. rewrite <- app_assoc.
        replace ((history ++ [reply_text PROCESSING None]) ++ body
                 ++ [logger_error (py "Error processing video: ")])
          with (history ++ reply_text PROCESSING None :: body
                ++ [logger_error (py "Error processing video: ")])
          by (by rewrite <- app_assoc).
        by eapply handled_caught.
    + intros [= <- <-]. by eapply handled_unanswered.
  - intros [= <- <-]. apply handled_no_text; [done | by left].
Qed.

End HandleMessage.

Section HandlerResults.
Import Chunker ChunkerSpec Matcher Bot.

Local Open Scope Z_scope.

Variable cfg : config.
Variable w : world.

Lemma generated_replies (l : list str) :
  generated (map (fun chunk => reply_text chunk (Some Markdown)) l) = [].
Proof. by induction l. Qed.

Lemma edits_replies (l : list str) :
  edits (map (fun chunk => reply_text chunk (Some Markdown)) l) = [].
Proof. by induction l. Qed.

Lemma markdown_texts_replies (l : list str) :
  markdown_texts (map (fun chunk => reply_text chunk (Some Markdown)) l) = l.
Proof. induction l as [|x l IH]; simpl; [done|]. by rewrite IH. Qed.

(** What the calls of the [try] body are like, in any world. *)
Lemma body_calls (video_url : str) (history body : list call) (bout : outcome unit) :
  summarize_and_send cfg w video_url history = (body, bout) ->
  generated body = [video_url] /\
  Forall (fun t => t <> [] /\ py_len t <= 4000) (markdown_texts body) /\
  (forall text, reply_text text None ∉ body) /\
  (exists e, edits body = [e] /\ e <> ERROR_OCCURRED) /\
  (logger_error (py "Error processing video: ") ∉ body).
Proof.
  intros Hbody.
  apply summarize_and_send_cases in Hbody as [_ Hcases]. simpl in Hcases.
  destruct Hcases as [(logs & -> & Hlogs)
                     | (summary & first & others & n & _ & _ & Hcs & -> & _)].
  - assert (logs = [] \/ logs = [logger_error (py "Error summarizing video: ")])
      as [-> | ->] by (destruct Hlogs as [[_ ->] | [_ ->]]; auto).
    + split_and!; [done | constructor | | by exists SORRY |].
      * intros text Hin. repeat (apply elem_of_cons in Hin as [Hin|Hin]; [done|]).
        by apply elem_of_nil in Hin.
      * intros Hin. repeat (apply elem_of_cons in Hin as [Hin|Hin]; [done|]).
        by apply elem_of_nil in Hin.
    + split_and!; [done | constructor | | by exists SORRY |].
      * intros text Hin. repeat (apply elem_of_cons in Hin as [Hin|Hin]; [done|]).
        by apply elem_of_nil in Hin.
      * intros Hin. repeat (apply elem_of_cons in Hin as [Hin|Hin]; [done|]).
        by apply elem_of_nil in Hin.
  - destruct (full_message_chunks summary) as (first' & others' & Hcs' & Hfit & Hhead).
    unfold summary_chunks in Hcs. rewrite Hcs in Hcs'. injection Hcs' as <- <-.
    apply Forall_cons in Hfit as [Hfirst Hothers].
    split_and!.
    + simpl. by rewrite generated_replies.
    + simpl. rewrite markdown_texts_replies. constructor; [done|].
      by apply Forall_take.
    + intros text Hin. apply elem_of_cons in Hin as [Hin|Hin]; [done|].
      apply elem_of_cons in Hin as [Hin|Hin]; [done|].
      apply list_elem_of_fmap in Hin as (chunk & Heq & _). done.
    + exists first. simpl. rewrite edits_replies. split; [done|].
      intros ->. by vm_compute in Hhead.
    + intros Hin. apply elem_of_cons in Hin as [Hin|Hin]; [done|].
      apply elem_of_cons in Hin as [Hin|Hin]; [done|].
      apply list_elem_of_fmap in Hin as (chunk & Heq & _). done.
Qed.

(** X9: Gemini is called at most once for a message, and only for a
    message of an allowed chat whose text holds a link; what it is given is
    the extracted URL, which starts with a scheme. *)
Theorem gemini_called_only_for_links (upd : update) (history : list call) :
  let calls := (handle_message cfg w upd history).1 in
  generated calls = [] \/
  exists t url,
    Access.is_chat_allowed (ALLOWED_CHAT_IDS cfg) (effective_chat_id upd) = true /\
    message_text upd = Some t /\
    extract_youtube_url t = Some url /\ has_scheme url = true /\
    generated calls = [url].
Proof.
  destruct (handle_message cfg w upd history) as [calls out] eqn:Hrun. simpl.
  apply handle_message_handled in Hrun.
  destruct Hrun as [ | | t | t url | t url body Ha Ht He Hp Hbody
                   | t url body Ha Ht He Hp Hbody]; try by left.
  - right. exists t, url.
    pose proof (extract_youtube_url_nonempty _ _ He) as (_ & _ & _ & Hsc).
    apply body_calls in Hbody as (Hgen & _). by rewrite <- Hgen.
  - right. exists t, url.
    pose proof (extract_youtube_url_nonempty _ _ He) as (_ & _ & _ & Hsc).
    apply body_calls in Hbody as (Hgen & _).
    split_and!; [done..|]. unfold generated in *. simpl.
    rewrite omap_app. simpl. by rewrite app_nil_r.
Qed.


(** X11: whatever the world does, every text [handle_message] sends with
    Markdown is non-empty and at most 4000 characters long. *)
Theorem markdown_messages_fit (upd : update) (history : list call) :
  Forall (fun t => t <> [] /\ py_len t <= 4000)
         (markdown_texts (handle_message cfg w upd history).1).
Proof.
  destruct (handle_message cfg w upd history) as [calls out] eqn:Hrun. simpl.
  apply handle_message_handled in Hrun.
  destruct Hrun as [ | | t | t url | t url body Ha Ht He Hp Hbody
                   | t url body Ha Ht He Hp Hbody]; try by constructor.
  - by apply body_calls in Hbody as (_ & Hfit & _).
  - apply body_calls in Hbody as (_ & Hfit & _).
    unfold markdown_texts in *. simpl. rewrite omap_app. simpl.
    by rewrite app_nil_r.
Qed.


End HandlerResults.

Section WorkingTelegram.
Import Chunker ChunkerSpec Matcher Bot.

Local Open Scope Z_scope.

Variable cfg : config.
Variable w : world.
Hypothesis telegram_ok : telegram_works w.

Lemma no_failed_last (history calls : list call) : ~ failed_last w history calls.
Proof using telegram_ok. intros (pre & c & _ & Hc). by rewrite telegram_ok in Hc. Qed.


(** With Telegram at work the row of the table is decided by the update
    and by Gemini alone. *)
Lemma handled_link (upd : update) (history calls : list call) (out : outcome unit)
    (t url : str) :
  handled cfg w upd history calls out ->
  Access.is_chat_allowed (ALLOWED_CHAT_IDS cfg) (effective_chat_id upd) = true ->
  message_text upd = Some t -> extract_youtube_url t = Some url ->
  exists body,
    summarize_and_send cfg w url (history ++ [reply_text PROCESSING None])
    = (body, Returned tt) /\
    calls = reply_text PROCESSING None :: body /\ out = Returned tt.
Proof using telegram_ok.
  intros Hrun Ha Ht He.
  pose proof (extract_youtube_url_nonempty _ _ He) as (Hne & _ & Hlink & _).
  destruct Hrun as [ Ha' | Ha' [Ht'|Ht'] | t' Ha' Ht' Hne' Hlink' | t' url' Ha' Ht' He' Hp
                   | t' url' body Ha' Ht' He' Hp Hbody
                   | t' url' body Ha' Ht' He' Hp Hbody].
  - congruence.
  - congruence.
  - congruence.
  - congruence.
  - by rewrite telegram_ok in Hp.
  - exists body. split_and!; [congruence | done | done].
  - apply summarize_and_send_cases in Hbody as [[? | [_ Hlast]] _]; [done|].
    by apply no_failed_last in Hlast.
Qed.

(** X12: with Telegram at work, a link from an allowed chat for which
    Gemini returns a non-empty summary is answered by exactly these calls:
    the ['Processing...'] reply, the Gemini call, the first chunk of the
    summary message put in place of ['Processing...'], and one reply for
    each further chunk, in order, all with Markdown. *)
Theorem handle_message_sends_summary
    (upd : update) (history : list call) (t url summary : str) :
  Access.is_chat_allowed (ALLOWED_CHAT_IDS cfg) (effective_chat_id upd) = true ->
  message_text upd = Some t -> extract_youtube_url t = Some url ->
  gemini w (history ++ [reply_text PROCESSING None]) url (SUMMARY_PROMPT cfg)
  = Some (Some summary) ->
  summary <> [] ->
  exists first others,
    summary_chunks summary = Some (first :: others) /\
    handle_message cfg w upd history =
      (reply_text PROCESSING None
       :: generate_content url (SUMMARY_PROMPT cfg)
       :: edit_text first (Some Markdown)
       :: map (fun chunk => reply_text chunk (Some Markdown)) others,
       Returned tt).
Proof using telegram_ok.
  intros Ha Ht He Hg Hne.
  destruct (handle_message cfg w upd history) as [calls out] eqn:Hrun.
  apply handle_message_handled in Hrun.
  destruct (handled_link _ _ _ _ _ _ Hrun Ha Ht He) as (body & Hbody & -> & ->).
  apply summarize_and_send_cases in Hbody as [_ Hcases]. simpl in Hcases.
  destruct Hcases as [(logs & _ & [[Hg' _] | [[Hg'|Hg'] _]])
                     | (summary' & first & others & n & Hg' & _ & Hcs & -> & Hn)];
    rewrite Hg in Hg'; simplify_eq.
  exists first, others. split; [done|].
  by rewrite (Hn eq_refl), take_ge.
Qed.


(** X14: with Telegram at work, when the Gemini call fails or returns no
    text, the ['Processing...'] message is replaced by the apology; a
    failure of the call is logged first. *)
Theorem handle_message_apologises
    (upd : update) (history : list call) (t url : str) :
  Access.is_chat_allowed (ALLOWED_CHAT_IDS cfg) (effective_chat_id upd) = true ->
  message_text upd = Some t -> extract_youtube_url t = Some url ->
  let gen := generate_content url (SUMMARY_PROMPT cfg) in
  let result :=
    gemini w (history ++ [reply_text PROCESSING None]) url (SUMMARY_PROMPT cfg) in
  (result = None ->
   handle_message cfg w upd history =
     ([reply_text PROCESSING None; gen;
       logger_error (py "Error summarizing video: "); edit_text SORRY None],
      Returned tt)) /\
  (result = Some None \/ result = Some (Some []) ->
   handle_message cfg w upd history =
     ([reply_text PROCESSING None; gen; edit_text SORRY None], Returned tt)).
Proof using telegram_ok.
  intros Ha Ht He gen result.
  destruct (handle_message cfg w upd history) as [calls out] eqn:Hrun.
  apply handle_message_handled in Hrun.
  destruct (handled_link _ _ _ _ _ _ Hrun Ha Ht He) as (body & Hbody & -> & ->).
  apply summarize_and_send_cases in Hbody as [_ Hcases]. simpl in Hcases.
  fold gen result in Hcases.
  destruct Hcases as [(logs & -> & [[Hg' ->] | [Hg' ->]])
                     | (summary' & first & others & n & Hg' & Hne & _)].
  - split; [done|]. intros [Hr|Hr]; congruence.
  - split; [|done]. intros Hr. destruct Hg'; congruence.
  - split; [intros Hr; congruence|]. intros [Hr|Hr]; congruence.
Qed.

End WorkingTelegram.

Lemma handle_message_sends_summary_witness :
  exists first others,
    Bot.summary_chunks (py "A short summary.") = Some (first :: others) /\
    Bot.handle_message Bot.example_config Bot.example_world Bot.example_update [] =
      (Bot.reply_text Bot.PROCESSING None
       :: Bot.generate_content (py "https://youtu.be/dQw4w9WgXcQ")
            (Bot.SUMMARY_PROMPT Bot.example_config)
       :: Bot.edit_text first (Some Bot.Markdown)
       :: map (fun chunk => Bot.reply_text chunk (Some Bot.Markdown)) others,
       Bot.Returned tt).
Proof.
  apply (handle_message_sends_summary Bot.example_config Bot.example_world
           (fun _ _ => eq_refl) Bot.example_update []
           (py "look: youtu.be/dQw4w9WgXcQ")).
  - vm_compute. reflexivity.
  - reflexivity.
  - vm_compute. reflexivity.
  - reflexivity.
  - vm_compute. discriminate.
Defined.


Lemma handle_message_apologises_witness :
  let w := Bot.World (fun _ _ => true) (fun _ _ _ => None) in
  let gen := Bot.generate_content (py "https://youtu.be/dQw4w9WgXcQ")
               (Bot.SUMMARY_PROMPT Bot.example_config) in
  let result :=
    Bot.gemini w ([] ++ [Bot.reply_text Bot.PROCESSING None])
      (py "https://youtu.be/dQw4w9WgXcQ") (Bot.SUMMARY_PROMPT Bot.example_config) in
  (result = None ->
   Bot.handle_message Bot.example_config w Bot.example_update [] =
     ([Bot.reply_text Bot.PROCESSING None; gen;
       Bot.logger_error (py "Error summarizing video: ");
       Bot.edit_text Bot.SORRY None],
      Bot.Returned tt)) /\
  (result = Some None \/ result = Some (Some []) ->
   Bot.handle_message Bot.example_config w Bot.example_update [] =
     ([Bot.reply_text Bot.PROCESSING None; gen; Bot.edit_text Bot.SORRY None],
      Bot.Returned tt)).
Proof.
  apply (handle_message_apologises Bot.example_config
           (Bot.World (fun _ _ => true) (fun _ _ _ => None))
           (fun _ _ => eq_refl) Bot.example_update []
           (py "look: youtu.be/dQw4w9WgXcQ")).
  - vm_compute. reflexivity.
  - reflexivity.
  - vm_compute. reflexivity.
Defined.

Section LongSummary.
Import Chunker ChunkerSpec Bot.

Local Open Scope Z_scope.

Lemma last_index_notin (c : N) (t : str) : c ∉ t -> last_index c t = None.
Proof.
  induction t as [|x t IH]; [done|]. intros Hn.
  apply not_elem_of_cons in Hn as [Hne Hn]. simpl. rewrite (IH Hn).
  by destruct (N.eqb_spec x c) as [->|_].
Qed.

Lemma last_index_app_notin (c : N) (s t : str) :
  c ∉ t -> last_index c (s ++ t) = last_index c s.
Proof.
  intros Hn. induction s as [|x s IH]; simpl; [by apply last_index_notin|].
  by rewrite IH.
Qed.

Lemma loop_body_acc (m : Z) (r : str) (acc : list str) :
  loop_body m (r, acc) =
  ((loop_body m (r, [])).1, acc ++ (loop_body m (r, [])).2).
Proof.
  unfold loop_body. cbv zeta. destruct (truthy _); simpl; [done|].
  by rewrite app_nil_r.
Qed.

(** The loop only adds to the chunks it is given. *)
Lemma while_loop_acc (fuel : nat) (m : Z) (r : str) (acc : list str) :
  while_loop fuel m (r, acc) =
  (fun st => (st.1, acc ++ st.2)) <$> while_loop fuel m (r, []).
Proof.
  revert r acc. induction fuel as [|fuel IH]; intros r acc; cbn [while_loop fst].
  - destruct (m <? py_len r); [done|]. simpl. by rewrite app_nil_r.
  - destruct (m <? py_len r); [|simpl; by rewrite app_nil_r].
    rewrite loop_body_acc. destruct (loop_body m (r, [])) as [r1 c1]. cbn [fst snd].
    rewrite (IH r1 (acc ++ c1)), (IH r1 c1). simpl.
    destruct (while_loop fuel m (r1, [])) as [[r2 c2]|]; simpl; [|done].
    by rewrite app_assoc.
Qed.

Lemma first_pass_of_long_summary (summary : str) :
  newline ∉ take 3980 summary -> (3980 < length summary)%nat ->
  loop_body 4000 (summary_header ++ summary, []) = (lstrip summary, [summary_title]).
Proof.
  intros Hn Hlen.
  assert (Hh : length summary_header = 20%nat) by reflexivity.
  assert (Hlong : 4000 < py_len (summary_header ++ summary)).
  { unfold py_len. rewrite length_app, Hh. lia. }
  assert (Hfind : rfind (summary_header ++ summary) newline 0 4000 = 19).
  { rewrite rfind_window by done.
    replace (Z.to_nat 4000) with (20 + 3980)%nat by lia.
    rewrite <- Hh at 1. rewrite take_app_add, last_index_app_notin by done.
    reflexivity. }
  assert (Hto : slice_to (summary_header ++ summary) 19 = take 19 summary_header).
  { rewrite (slice_to_nat _ 19) by (rewrite length_app, Hh; lia).
    by rewrite take_app_le by (rewrite Hh; lia). }
  assert (Hfrom : slice_from (summary_header ++ summary) 19 = newline :: summary).
  { rewrite (slice_from_nat _ 19) by (rewrite length_app, Hh; lia).
    by rewrite drop_app_le by (rewrite Hh; lia). }
  unfold loop_body. rewrite Hfind. cbv zeta.
  change (19 =? -1) with false. cbv iota.
  change (19 =? -1) with false. cbv iota.
  rewrite Hto, Hfrom. reflexivity.
Qed.

(** X16: when the summary is longer than 3980 characters and has no
    newline among its first 3980, the first message is the title line
    alone: the only newlines in reach of the first cut are those of the
    header.  The messages after it are the chunks of the summary. *)
Theorem long_summary_title_alone (summary : str) (fuel : nat) :
  newline ∉ take 3980 summary -> (3980 < length summary)%nat ->
  (length (summary_header ++ summary) <= fuel)%nat ->
  exists rest,
    split_message fuel (summary_header ++ summary) 4000
    = Some (summary_title :: rest) /\
    (lstrip summary <> [] ->
     split_message fuel (lstrip summary) 4000 = Some rest).
Proof.
  intros Hn Hlen Hfuel.
  assert (Hh : length summary_header = 20%nat) by reflexivity.
  rewrite length_app, Hh in Hfuel.
  destruct fuel as [|fuel]; [lia|].
  pose proof (length_lstrip summary) as Hls.
  destruct (while_loop_total 4000 eq_refl fuel (lstrip summary, []))
    as [[r more] Hloop]; [simpl; lia|].
  exists (if truthy r then more ++ [r] else more). split.
  - unfold split_message.
    destruct (Z.leb_spec (py_len (summary_header ++ summary)) 4000) as [Hle|_].
    { unfold py_len in Hle. rewrite length_app, Hh in Hle. lia. }
    cbn [while_loop fst].
    destruct (Z.ltb_spec 4000 (py_len (summary_header ++ summary))) as [_|Hge].
    2:{ unfold py_len in Hge. rewrite length_app, Hh in Hge. lia. }
    rewrite first_pass_of_long_summary, while_loop_acc, Hloop by done. simpl.
    by destruct (truthy r).
  - intros Hne. unfold split_message.
    destruct (Z.leb_spec (py_len (lstrip summary)) 4000) as [Hle|Hgt].
    + assert (Hst : while_loop fuel 4000 (lstrip summary, []) = Some (lstrip summary, [])).
      { destruct fuel; cbn [while_loop fst];
          by destruct (Z.ltb_spec 4000 (py_len (lstrip summary))); [lia|]. }
      rewrite Hst in Hloop. injection Hloop as <- <-.
      by destruct (lstrip summary).
    + by rewrite (while_loop_fuel 4000 fuel (S fuel) _ _ ltac:(lia) Hloop).
Qed.

End LongSummary.

Lemma long_summary_title_alone_witness :
  exists rest,
    Chunker.split_message 4005 (Bot.summary_header ++ replicate 3985 120%N) 4000
    = Some (Bot.summary_title :: rest) /\
    (lstrip (replicate 3985 120%N) <> [] ->
     Chunker.split_message 4005 (lstrip (replicate 3985 120%N)) 4000 = Some rest).
Proof.
  apply long_summary_title_alone.
  - apply (bool_decide_unpack _). vm_compute. exact I.
  - vm_compute. lia.
  - vm_compute. lia.
Defined.

Section Denied.
Import Bot.

(** A chat that is not allowed gets the same from both handlers, whatever
    it sends and whatever the world does: one plain reply with the
    placeholder text. *)
Remark denied_chat_gets_placeholder
    (cfg : config) (w : world) (upd : update) (history : list call) :
  Access.is_chat_allowed (ALLOWED_CHAT_IDS cfg) (effective_chat_id upd) = false ->
  (handle_message cfg w upd history).1 = [reply_text (PLACEHOLDER_MESSAGE cfg) None] /\
  handle_message cfg w upd history = start cfg w upd history.
Proof.
  intros Ha. unfold handle_message, start. by rewrite Ha.
Qed.

End Denied.

